(** * length: distances as float64 nanometer counts

    A shallow embedding of the Go package [length] (file [length.go]):
    the unit constants, the formatter ([String], [printMetric],
    [printImperial]) and the distance-string parser ([leadingInt],
    [leadingFraction], [ParseDistance]).

    Go's [float64] is IEEE 754 binary64 with round-to-nearest-even; it is
    modelled by the Standard Library's executable specification of binary
    floating point ([spec_float], precision 53, maximal exponent 1024).
    Every float64 operation rounds on its own, as in the code that the Go
    compiler emits for amd64 (no fused multiply-add). Go strings are byte
    sequences, modelled by [string] (a list of 8-bit [ascii] characters);
    [int64] is [Z] with its wrap-around written out. *)

From Stdlib Require Import ZArith Lia List String Ascii Bool DecimalString.
From Stdlib Require Import Floats.SpecFloat.
Import ListNotations.

Open Scope string_scope.
Open Scope Z_scope.

(** ** IEEE binary64 *)

Module F64.

Definition prec : Z := 53.
Definition emax : Z := 1024.

Definition float64 : Type := spec_float.

Definition zero : float64 := S754_zero false.

Definition add : float64 -> float64 -> float64 := SFadd prec emax.
Definition mul : float64 -> float64 -> float64 := SFmul prec emax.
Definition div : float64 -> float64 -> float64 := SFdiv prec emax.
Definition opp : float64 -> float64 := SFopp.

(** Go's [x < y], [x <= y] and [x == y] on float64; [x > y] is [ltb y x]
    and [x >= y] is [leb y x]. Every comparison with a NaN is false. *)
Definition ltb : float64 -> float64 -> bool := SFltb.
Definition leb : float64 -> float64 -> bool := SFleb.
Definition eqb : float64 -> float64 -> bool := SFeqb.

(** The float64 nearest to an integer: the conversion [float64(n)] of an
    integer, and an integer constant used at type float64. *)
Definition of_Z (z : Z) : float64 := binary_normalize prec emax z 0 false.

(** The decimal literal [m]e-[k], for [m] and [10^k] below 2^53: the
    quotient of two exact floats is the float nearest to the literal. *)
Definition lit (m : Z) (k : Z) : float64 := div (of_Z m) (of_Z (10 ^ k)).

End F64.

Abbreviation float64 := F64.float64.

Arguments F64.add : simpl never.
Arguments F64.mul : simpl never.
Arguments F64.div : simpl never.
Arguments F64.ltb : simpl never.
Arguments F64.leb : simpl never.
Arguments F64.eqb : simpl never.
Arguments F64.of_Z : simpl never.

(** ** Bytes and int64 *)

Definition byte_val (c : ascii) : Z := Z.of_N (N_of_ascii c).

(** ['0' <= c && c <= '9'] *)
Definition isDigit (c : ascii) : bool := (48 <=? byte_val c) && (byte_val c <=? 57).

(** [c == '.'] *)
Definition isDot (c : ascii) : bool := byte_val c =? 46.

(** [c == '-'] and [c == '+'] *)
Definition isMinus (c : ascii) : bool := byte_val c =? 45.
Definition isPlus (c : ascii) : bool := byte_val c =? 43.

Definition maxInt64 : Z := 2 ^ 63 - 1.

(** Two's complement wrap-around of int64 arithmetic. *)
Definition wrap64 (z : Z) : Z := (z + 2 ^ 63) mod 2 ^ 64 - 2 ^ 63.

Definition add64 (a b : Z) : Z := wrap64 (a + b).
Definition sub64 (a b : Z) : Z := wrap64 (a - b).
Definition mul64 (a b : Z) : Z := wrap64 (a * b).

(** ** Unit constants *)

Definition Distance : Type := float64.

Definition Nanometer : Distance := F64.of_Z 1.
Definition Micrometer : Distance := F64.mul (F64.of_Z 1000) Nanometer.
Definition Millimeter : Distance := F64.mul (F64.of_Z 1000) Micrometer.
Definition Centimeter : Distance := F64.mul (F64.of_Z 10) Millimeter.
Definition Meter : Distance := F64.mul (F64.of_Z 1000) Millimeter.
Definition Kilometer : Distance := F64.mul (F64.of_Z 1000) Meter.
Definition Inch : Distance := F64.mul (F64.lit 254 2) Centimeter.
Definition Feet : Distance := F64.mul (F64.lit 3048 1) Millimeter.
Definition Yard : Distance := F64.mul (F64.of_Z 3) Feet.
Definition Mile : Distance := F64.mul (F64.of_Z 5280) Feet.
Definition Lightyear : Distance := F64.mul (F64.of_Z 9461000000000) Kilometer.

(** ** Display mode *)

(** The package variable [usingMetric] is the state; the three operations
    are state transformers. *)
Definition usingMetric_init : bool := true.
Definition ToggleUnits (usingMetric : bool) : bool := negb usingMetric.
Definition UseMetric (usingMetric : bool) : bool := true.
Definition UseImperial (usingMetric : bool) : bool := false.

(** ** Formatting *)

Definition digit_char (d : Z) : ascii := ascii_of_N (Z.to_N (48 + d)).

(** Six decimal digits of [0 <= r < 10^6], zero padded. *)
Definition frac6 (r : Z) : string :=
  String (digit_char (r / 100000 mod 10))
  (String (digit_char (r / 10000 mod 10))
  (String (digit_char (r / 1000 mod 10))
  (String (digit_char (r / 100 mod 10))
  (String (digit_char (r / 10 mod 10))
  (String (digit_char (r mod 10)) EmptyString))))).

Definition dec_string (n : Z) : string := NilZero.string_of_uint (N.to_uint (Z.to_N n)).

(** [m * 2^e * 10^6] rounded to the nearest integer, ties to even. *)
Definition micro_units (m : positive) (e : Z) : Z :=
  let n := Zpos m * 1000000 in
  match e with
  | Zneg p =>
      let w := 2 ^ Zpos p in
      let q := n / w in
      let r := n mod w in
      match 2 * r ?= w with
      | Lt => q
      | Eq => if Z.even q then q else q + 1
      | Gt => q + 1
      end
  | _ => n * 2 ^ e
  end.

(** The verb [%f] of [fmt.Sprintf] on a float64: sign, integer part, a
    point and six fractional digits of the exact value rounded half to
    even; [NaN], [+Inf] and [-Inf] for the special values. *)
Definition fmt_f (x : float64) : string :=
  match x with
  | S754_nan => "NaN"
  | S754_infinity s => if s then "-Inf" else "+Inf"
  | S754_zero s => (if s then "-" else "") ++ "0.000000"
  | S754_finite s m e =>
      let n := micro_units m e in
      (if s then "-" else "") ++ dec_string (n / 1000000) ++ "." ++ frac6 (n mod 1000000)
  end.

(** The micro sign U+00B5 in UTF-8 (bytes C2 B5) and the Greek letter mu
    U+03BC (bytes CE BC). *)
Definition micro_sign : string :=
  String (ascii_of_N 194) (String (ascii_of_N 181) EmptyString).
Definition greek_mu : string :=
  String (ascii_of_N 206) (String (ascii_of_N 188) EmptyString).

Definition printMetric (d : Distance) : string :=
  if F64.leb (F64.mul (F64.of_Z 1) Meter) d then
    fmt_f (F64.div d Meter) ++ "m"
  else if F64.leb (F64.mul (F64.of_Z 1) Centimeter) d then
    fmt_f (F64.div d Centimeter) ++ "cm"
  else if F64.leb (F64.mul (F64.of_Z 1) Millimeter) d then
    fmt_f (F64.div d Millimeter) ++ "mm"
  else if F64.leb (F64.mul (F64.of_Z 1) Micrometer) d then
    fmt_f (F64.div d Micrometer) ++ micro_sign ++ "m"
  else if F64.eqb d F64.zero then
    "0m"
  else
    fmt_f (F64.div d Nanometer) ++ "nm".

Definition printImperial (d : Distance) : string :=
  if F64.leb (F64.mul (F64.of_Z 1) Yard) d then
    fmt_f (F64.div d Yard) ++ "yd"
  else if F64.leb (F64.mul (F64.of_Z 1) Feet) d then
    fmt_f (F64.div d Feet) ++ "ft"
  else if F64.eqb d F64.zero then
    "0yd"
  else
    fmt_f (F64.div d Inch) ++ "in".

(** [d.String()], reading the display mode. *)
Definition String_ (usingMetric : bool) (d : Distance) : string :=
  if usingMetric then printMetric d else printImperial d.

(** ** The unit table *)

Definition unitTable : list (string * float64) :=
  [ ("nm", Nanometer);
    ("um", Micrometer);
    (micro_sign ++ "m", Micrometer);
    (greek_mu ++ "m", Micrometer);
    ("mm", Millimeter);
    ("cm", Centimeter);
    ("m", Meter);
    ("km", Kilometer);
    ("in", Inch);
    ("ft", Feet);
    ("yd", Yard);
    ("mi", Mile);
    ("ly", Lightyear) ].

Fixpoint assoc (tbl : list (string * float64)) (u : string) : option float64 :=
  match tbl with
  | [] => None
  | (k, x) :: tbl' => if String.eqb k u then Some x else assoc tbl' u
  end.

(** [unit, ok := unitMap[u]] *)
Definition unitMap (u : string) : option float64 := assoc unitTable u.

(** ** Parsing *)

Inductive result (A : Type) : Type :=
| Ok : A -> result A
| Err : string -> result A.
Arguments Ok {A} _.
Arguments Err {A} _.

(** The loop of [leadingInt], on the accumulator [x] and the bytes left.
    [None] is the return of [errLeadingInt]. *)
Fixpoint leadingInt_from (x : float64) (s : string) : option (float64 * string) :=
  match s with
  | EmptyString => Some (x, s)
  | String c s' =>
      if negb (isDigit c) then Some (x, s)
      else if F64.ltb (F64.of_Z (maxInt64 / 10)) x then None
      else
        let x' := F64.add (F64.mul x (F64.of_Z 10)) (F64.of_Z (sub64 (byte_val c) 48)) in
        if F64.ltb x' F64.zero then None
        else leadingInt_from x' s'
  end.

Definition leadingInt (s : string) : option (float64 * string) :=
  leadingInt_from F64.zero s.

(** The loop of [leadingFraction], on [x], [scale], the [overflow] flag and
    the bytes left. *)
Fixpoint leadingFraction_from (x : Z) (scale : float64) (overflow : bool) (s : string)
  : Z * float64 * string :=
  match s with
  | EmptyString => (x, scale, s)
  | String c s' =>
      if negb (isDigit c) then (x, scale, s)
      else if overflow then leadingFraction_from x scale overflow s'
      else if maxInt64 / 10 <? x then leadingFraction_from x scale true s'
      else
        let y := sub64 (add64 (mul64 x 10) (byte_val c)) 48 in
        if y <? 0 then leadingFraction_from x scale true s'
        else leadingFraction_from y (F64.mul scale (F64.of_Z 10)) overflow s'
  end.

Definition leadingFraction (s : string) : Z * float64 * string :=
  leadingFraction_from 0 (F64.of_Z 1) false s.

(** The unit scan: the longest prefix without ['.'] and digits, and the
    rest ([u := s[:i]] and [s = s[i:]]). *)
Fixpoint spanUnit (s : string) : string * string :=
  match s with
  | EmptyString => (EmptyString, EmptyString)
  | String c s' =>
      if isDot c || isDigit c then (EmptyString, s)
      else let '(u, r) := spanUnit s' in (String c u, r)
  end.

Definition errInvalid (orig : string) : string :=
  "length: invalid distance " ++ orig.
Definition errMissingUnit (orig : string) : string :=
  "length: missing unit in distance " ++ orig.
Definition errUnknownUnit (u orig : string) : string :=
  "length: unknown unit " ++ u ++ " in distance " ++ orig.

(** The optional fraction of a term, a period and a run of digits: the numerator [f], the
    [scale], the bytes left and [post], whether a digit was consumed after
    the period. *)
Definition scanFraction (s : string) : Z * float64 * string * bool :=
  match s with
  | String c s' =>
      if isDot c then
        let pl := String.length s' in
        let '(f, scale, s2) := leadingFraction s' in
        (f, scale, s2, negb (pl =? String.length s2)%nat)
      else (0, F64.of_Z 1, s, false)
  | EmptyString => (0, F64.of_Z 1, s, false)
  end.

(** The value [v*unit + f*(unit/scale)] of a term with its two overflow
    tests. *)
Definition termValue (orig : string) (v : float64) (f : Z) (scale unit : float64)
  : result float64 :=
  if F64.ltb (F64.div (F64.of_Z maxInt64) unit) v then Err (errInvalid orig)
  else
    let v := F64.mul v unit in
    if 0 <? f then
      let v := F64.add v (F64.mul (F64.of_Z f) (F64.div unit scale)) in
      if F64.ltb v F64.zero then Err (errInvalid orig)
      else Ok v
    else Ok v.

(** One iteration of the loop of [ParseDistance], up to the value [v] of
    the term: the value and the bytes left, or the error returned. The
    loop enters an iteration on a non-empty [s] only. *)
Definition parseTerm (orig s : string) : result (float64 * string) :=
  match s with
  | EmptyString => Err (errInvalid orig)
  | String c0 _ =>
      if negb (isDot c0 || isDigit c0) then Err (errInvalid orig)
      else
        let pl := String.length s in
        match leadingInt s with
        | None => Err (errInvalid orig)
        | Some (v, s1) =>
            let pre := negb (pl =? String.length s1)%nat in
            let '(f, scale, s2, post) := scanFraction s1 in
            if negb pre && negb post then Err (errInvalid orig)
            else
              let '(u, s3) := spanUnit s2 in
              if (String.length u =? 0)%nat then Err (errMissingUnit orig)
              else
                match unitMap u with
                | None => Err (errUnknownUnit u orig)
                | Some unit =>
                    match termValue orig v f scale unit with
                    | Err e => Err e
                    | Ok v => Ok (v, s3)
                    end
                end
        end
  end.

(** The main loop (while [s] is not empty) with its accumulator [d]; every iteration
    consumes at least one byte, [fuel] bounds the number of iterations and
    [None] is fuel exhausted. *)
Fixpoint parseTerms (fuel : nat) (orig : string) (d : float64) (s : string)
  : option (result Distance) :=
  match s with
  | EmptyString => Some (Ok d)
  | String _ _ =>
      match fuel with
      | O => None
      | S fuel' =>
          match parseTerm orig s with
          | Err e => Some (Err e)
          | Ok (v, s') =>
              let d' := F64.add d v in
              if F64.ltb d' F64.zero then Some (Err (errInvalid orig))
              else parseTerms fuel' orig d' s'
          end
      end
  end.

(** The optional sign: [neg] and the bytes after the sign. *)
Definition consumeSign (s : string) : bool * string :=
  match s with
  | String c s' => if isMinus c || isPlus c then (isMinus c, s') else (false, s)
  | EmptyString => (false, s)
  end.

Definition ParseDistance (s : string) : option (result Distance) :=
  let orig := s in
  let '(neg, s) := consumeSign s in
  if String.eqb s "0" then Some (Ok F64.zero)
  else if String.eqb s "" then Some (Err (errInvalid orig))
  else
    match parseTerms (String.length s) orig F64.zero s with
    | Some (Ok d) => Some (Ok (if neg then F64.opp d else d))
    | r => r
    end.

(** * Vocabulary of the statements *)

(** [nsign x]: [x] carries no minus sign; it is [+0], a positive number,
    plus infinity or a NaN. *)
Definition nsign (x : float64) : Prop :=
  match x with
  | S754_nan => True
  | S754_zero s | S754_infinity s | S754_finite s _ _ => s = false
  end.

(** Every byte of [s] is a digit. *)
Fixpoint allDigits (s : string) : bool :=
  match s with
  | EmptyString => true
  | String c s' => isDigit c && allDigits s'
  end.

(** No byte of [s] is a digit or a period: [s] can be the unit of a term. *)
Fixpoint unitBytes (s : string) : bool :=
  match s with
  | EmptyString => true
  | String c s' => negb (isDot c || isDigit c) && unitBytes s'
  end.

(** The first byte of [s], if any, is not a digit. *)
Definition noDigitAhead (s : string) : bool :=
  match s with
  | EmptyString => true
  | String c _ => negb (isDigit c)
  end.

(** The first byte of [s], if any, is a digit or a period. *)
Definition numberAhead (s : string) : bool :=
  match s with
  | EmptyString => true
  | String c _ => isDot c || isDigit c
  end.

(** The keys of the unit table, in the order of the source. *)
Definition unitNames : list string :=
  [ "nm"; "um"; micro_sign ++ "m"; greek_mu ++ "m"; "mm"; "cm"; "m"; "km";
    "in"; "ft"; "yd"; "mi"; "ly" ].

(** [x] is a finite float64 above zero. *)
Definition positiveFinite (x : float64) : bool :=
  match x with
  | S754_finite false _ _ => true
  | _ => false
  end.

(** [Terms s vs]: [s] is a sequence of terms whose values are [vs], left
    to right. The values do not depend on the text of the error messages,
    so the terms are read with an empty [orig]. *)
Inductive Terms : string -> list float64 -> Prop :=
| Terms_nil : Terms "" []
| Terms_cons (s : string) (v : float64) (s' : string) (vs : list float64) :
    parseTerm "" s = Ok (v, s') -> Terms s' vs -> Terms s (v :: vs).


(** [s] carries no sign: its first byte, if any, is neither ['-'] nor
    ['+']. *)
Definition unsigned (s : string) : bool :=
  match s with
  | EmptyString => true
  | String c _ => negb (isMinus c || isPlus c)
  end.

(** The last byte of [s], if any. *)
Fixpoint lastByte (s : string) : option ascii :=
  match s with
  | EmptyString => None
  | String c EmptyString => Some c
  | String _ s' => lastByte s'
  end.

(** An input without a unit suffix: after the optional sign it is empty,
    or it ends with a digit or a period (a number that no unit follows). *)
Definition unitless (s : string) : bool :=
  match lastByte (snd (consumeSign s)) with
  | None => true
  | Some c => isDot c || isDigit c
  end.

(** What [scanFraction] keeps of a fraction [frac] (a period and digits, or
    nothing): the numerator and the scale. *)
Definition fractionOf (frac : string) : Z * float64 :=
  match frac with
  | EmptyString => (0, F64.of_Z 1)
  | String _ fs => let '(f, sc, _) := leadingFraction fs in (f, sc)
  end.

(** The unit and the suffix of the metric rendering, by the descending
    thresholds; [None] is the exact zero. *)
Definition metricUnit (d : Distance) : option (Distance * string) :=
  if F64.leb Meter d then Some (Meter, "m")
  else if F64.leb Centimeter d then Some (Centimeter, "cm")
  else if F64.leb Millimeter d then Some (Millimeter, "mm")
  else if F64.leb Micrometer d then Some (Micrometer, micro_sign ++ "m")
  else if F64.eqb d F64.zero then None
  else Some (Nanometer, "nm").

(** A decimal rendering with six fractional digits: an optional minus
    sign, digits, a period and six digits. *)
Definition sixDigits (r : string) : Prop :=
  exists sgn ip fr,
    r = sgn ++ ip ++ "." ++ fr /\ (sgn = "" \/ sgn = "-") /\
    allDigits ip = true /\ ip <> "" /\
    allDigits fr = true /\ String.length fr = 6%nat.

(** [x] is a zero or a finite float64: neither an infinity nor a NaN. *)
Definition finiteOrZero (x : float64) : bool :=
  match x with
  | S754_zero _ | S754_finite _ _ _ => true
  | _ => false
  end.

(** The operations on the display mode, and the mode after a sequence of
    them. *)
Inductive modeOp : Type := OpToggle | OpUseMetric | OpUseImperial.

Definition applyOp (usingMetric : bool) (op : modeOp) : bool :=
  match op with
  | OpToggle => ToggleUnits usingMetric
  | OpUseMetric => UseMetric usingMetric
  | OpUseImperial => UseImperial usingMetric
  end.

Definition runOps (ops : list modeOp) (usingMetric : bool) : bool :=
  fold_left applyOp ops usingMetric.

(** The unit and the suffix of the imperial rendering, by the descending
    thresholds; [None] is the exact zero. *)
Definition imperialUnit (d : Distance) : option (Distance * string) :=
  if F64.leb Yard d then Some (Yard, "yd")
  else if F64.leb Feet d then Some (Feet, "ft")
  else if F64.eqb d F64.zero then None
  else Some (Inch, "in").

(** [shl p j] is [p * 2^j] and [dg p] the number of binary digits of [p]:
    the float64 of a positive integer [p] below 2^53 has the mantissa
    [shl p (53 - dg p)] and the exponent [dg p - 53]. *)
Definition shl (p : positive) (j : Z) : positive :=
  match j with
  | Zpos n => Pos.iter xO p n
  | _ => p
  end.

Definition dg (p : positive) : Z := Zpos (digits2_pos p).

(** The number that a run of digits denotes, continuing from [acc]. *)
Fixpoint decVal_from (acc : Z) (s : string) : Z :=
  match s with
  | EmptyString => acc
  | String c s' => decVal_from (10 * acc + (byte_val c - 48)) s'
  end.

Definition decVal (s : string) : Z := decVal_from 0 s.

(** The scales of the units in whole nanometers; the light-year, whose
    float64 scale is a rounded value, is left out. *)
Definition unitScales : list (string * Z) :=
  [ ("nm", 1); ("um", 1000); (micro_sign ++ "m", 1000); (greek_mu ++ "m", 1000);
    ("mm", 10 ^ 6); ("cm", 10 ^ 7); ("m", 10 ^ 9); ("km", 10 ^ 12);
    ("in", 25400000); ("ft", 304800000); ("yd", 914400000);
    ("mi", 1609344000000) ].

Fixpoint scaleOf_in (tbl : list (string * Z)) (u : string) : option Z :=
  match tbl with
  | [] => None
  | (k, x) :: tbl' => if String.eqb k u then Some x else scaleOf_in tbl' u
  end.

Definition scaleOf (u : string) : option Z := scaleOf_in unitScales u.

(** A decimal term: integer digits, an optional fraction (the digits after
    the period) and a unit. Its text, and the whole number of nanometers
    it denotes when the unit has a whole scale that the power of ten of the
    fraction divides. *)
Definition decTerm : Type := string * option string * string.

Definition fracText (frac : option string) : string :=
  match frac with
  | Some fs => "." ++ fs
  | None => ""
  end.

Definition termText (t : decTerm) : string :=
  let '(ip, frac, u) := t in ip ++ fracText frac ++ u.

Definition termsText (ts : list decTerm) : string :=
  fold_right (fun t rest => termText t ++ rest) "" ts.

Definition fracNanos (frac : option string) (U : Z) : option Z :=
  match frac with
  | None => Some 0
  | Some fs =>
      let p := 10 ^ Z.of_nat (String.length fs) in
      if U mod p =? 0 then Some (decVal fs * (U / p)) else None
  end.

Definition termNanos (t : decTerm) : option Z :=
  let '(ip, frac, u) := t in
  match scaleOf u with
  | None => None
  | Some U =>
      match fracNanos frac U with
      | None => None
      | Some fn => Some (decVal ip * U + fn)
      end
  end.

Fixpoint termsNanos (ts : list decTerm) : option Z :=
  match ts with
  | [] => Some 0
  | t :: ts' =>
      match termNanos t, termsNanos ts' with
      | Some n, Some m => Some (n + m)
      | _, _ => None
      end
  end.

Definition wellFormed (t : decTerm) : bool :=
  let '(ip, frac, _) := t in
  allDigits ip && negb (String.eqb ip "") &&
  match frac with
  | Some fs => allDigits fs
  | None => true
  end.

(** Equality of two float64 as data. *)
Definition float_eqb (x y : float64) : bool :=
  match x, y with
  | S754_zero a, S754_zero b => Bool.eqb a b
  | S754_infinity a, S754_infinity b => Bool.eqb a b
  | S754_nan, S754_nan => true
  | S754_finite a m e, S754_finite b m' e' => Bool.eqb a b && Pos.eqb m m' && Z.eqb e e'
  | _, _ => false
  end.

(** What the proofs need of an entry of [unitScales]: the table maps the
    name to the float64 of the scale, the scale is below 2^53, and the
    bound (1<<63-1)/unit of the overflow test has an exponent above that of
    every integer n with n * scale below 2^53. *)
Definition scale_ok (e : string * Z) : bool :=
  let '(u, U) := e in
  match unitMap u, F64.div (F64.of_Z maxInt64) (F64.of_Z U) with
  | Some x, S754_finite false _ eq =>
      float_eqb x (F64.of_Z U) && unitBytes u && negb (String.eqb u "") &&
      (0 <? U) && (U <? 2 ^ 53) && (- Z.log2 U <? eq)
  | _, _ => false
  end.

(** The three kinds of error message of the parser, for the input [orig]. *)
Definition parseError (orig e : string) : Prop :=
  e = errInvalid orig \/ e = errMissingUnit orig \/
  exists u, u <> "" /\ unitBytes u = true /\ unitMap u = None /\
            e = errUnknownUnit u orig.

(** Formatting in metric mode and parsing again gives the distance back. *)
Definition roundTrips (d : Distance) : bool :=
  match ParseDistance (printMetric d) with
  | Some (Ok d') => float_eqb d' d
  | _ => false
  end.

(** [f] holds of every integer from 0 to [k - 1]. *)
Fixpoint allBelow (k : nat) (f : Z -> bool) : bool :=
  match k with
  | O => true
  | S k' => f (Z.of_nat k') && allBelow k' f
  end.

(** * Properties *)

(** ** Signs of float64 results

    The operations of the parser keep [nsign], and [nsign] makes the test
    [x < 0] of the source false. *)

Lemma nsign_not_lt_zero (x : float64) : nsign x -> F64.ltb x F64.zero = false.
Proof.
  unfold F64.ltb. destruct x as [s|s| |s m e]; simpl; intros H; subst; reflexivity.
Qed.

Lemma round_aux_nsign (m e : Z) (l : location) :
  nsign (binary_round_aux F64.prec F64.emax false m e l).
Proof.
  unfold binary_round_aux.
  destruct (shr_fexp F64.prec F64.emax m e l) as [mrs e1].
  destruct (shr_fexp F64.prec F64.emax _ e1 loc_Exact) as [mrs2 e2].
  destruct (shr_m mrs2); [reflexivity | | exact I].
  destruct (e2 <=? F64.emax - F64.prec); reflexivity.
Qed.

Lemma normalize_pos_nsign (m : positive) (e : Z) :
  nsign (binary_normalize F64.prec F64.emax (Zpos m) e false).
Proof.
  unfold binary_normalize, binary_round.
  destruct (shl_align m e _) as [mz ez]. apply round_aux_nsign.
Qed.

Lemma of_Z_nsign (z : Z) : 0 <= z -> nsign (F64.of_Z z).
Proof.
  intros Hz. unfold F64.of_Z.
  destruct z as [|p|p]; [reflexivity | apply normalize_pos_nsign | lia].
Qed.

Ltac float_cases x y :=
  unfold F64.add, F64.mul, F64.div;
  destruct x as [?s|?s| |?s ?m ?e], y as [?s|?s| |?s ?m ?e]; simpl in *; subst;
  try reflexivity; try exact I.

Lemma mul_nsign (x y : float64) : nsign x -> nsign y -> nsign (F64.mul x y).
Proof.
  intros Hx Hy. float_cases x y. apply round_aux_nsign.
Qed.

Lemma div_nsign (x y : float64) : nsign x -> nsign y -> nsign (F64.div x y).
Proof.
  intros Hx Hy. float_cases x y.
  destruct (SFdiv_core_binary _ _ _ _ _ _) as [[mz ez] lz]. apply round_aux_nsign.
Qed.

Lemma add_nsign (x y : float64) : nsign x -> nsign y -> nsign (F64.add x y).
Proof.
  intros Hx Hy. float_cases x y. apply normalize_pos_nsign.
Qed.

Create HintDb nsign.
#[local] Hint Resolve mul_nsign div_nsign add_nsign of_Z_nsign : nsign.

(** ** Scanning

    What the three scanners consume: [leadingInt] and [leadingFraction] a
    run of digits, the unit scan a run of bytes that are neither digits nor
    periods. *)

Lemma append_nil_r (s : string) : s ++ "" = s.
Proof. induction s; simpl; congruence. Qed.

Lemma append_assoc (a b c : string) : (a ++ b) ++ c = a ++ b ++ c.
Proof. induction a; simpl; congruence. Qed.

Lemma length_append (a b : string) :
  String.length (a ++ b) = (String.length a + String.length b)%nat.
Proof. induction a; simpl; congruence. Qed.

Lemma leadingInt_from_stop (x : float64) (r : string) :
  noDigitAhead r = true -> leadingInt_from x r = Some (x, r).
Proof.
  destruct r as [|c r]; simpl; [reflexivity|]. intros ->. reflexivity.
Qed.

Lemma leadingInt_from_app (ds r : string) :
  allDigits ds = true ->
  forall x,
    leadingInt_from x (ds ++ r) =
    match leadingInt_from x ds with
    | Some (v, _) => leadingInt_from v r
    | None => None
    end.
Proof.
  induction ds as [|c ds IH]; simpl; intros Hd x.
  - reflexivity.
  - apply andb_prop in Hd as [Hc Hd]. rewrite Hc. simpl.
    destruct (F64.ltb (F64.of_Z (maxInt64 / 10)) x); [reflexivity|].
    destruct (F64.ltb _ F64.zero); [reflexivity|].
    apply IH, Hd.
Qed.

Lemma leadingInt_from_digits (ds : string) :
  allDigits ds = true ->
  forall x v r, leadingInt_from x ds = Some (v, r) -> r = "".
Proof.
  induction ds as [|c ds IH]; simpl; intros Hd x v r H.
  - congruence.
  - apply andb_prop in Hd as [Hc Hd]. rewrite Hc in H. simpl in H.
    destruct (F64.ltb (F64.of_Z (maxInt64 / 10)) x); [discriminate|].
    destruct (F64.ltb _ F64.zero); [discriminate|].
    eapply IH; eassumption.
Qed.

Lemma leadingInt_from_inv (s : string) :
  forall x v r,
    leadingInt_from x s = Some (v, r) ->
    exists ds, s = ds ++ r /\ allDigits ds = true /\ noDigitAhead r = true.
Proof.
  induction s as [|c s IH]; simpl; intros x v r H.
  - inversion H; subst. exists "". auto.
  - destruct (isDigit c) eqn:Hc; simpl in H.
    + destruct (F64.ltb (F64.of_Z (maxInt64 / 10)) x); [discriminate|].
      destruct (F64.ltb _ F64.zero); [discriminate|].
      apply IH in H as (ds & -> & Hds & Hr).
      exists (String c ds). simpl. rewrite Hc. auto.
    + inversion H; subst. exists "". simpl. rewrite Hc. auto.
Qed.

Lemma leadingInt_from_nsign (s : string) :
  forall x v r, nsign x -> leadingInt_from x s = Some (v, r) -> nsign v.
Proof.
  induction s as [|c s IH]; simpl; intros x v r Hx H.
  - congruence.
  - destruct (isDigit c) eqn:Hc; simpl in H; [|congruence].
    destruct (F64.ltb (F64.of_Z (maxInt64 / 10)) x); [discriminate|].
    destruct (F64.ltb _ F64.zero); [discriminate|].
    eapply IH; [|eassumption].
    apply add_nsign; [apply mul_nsign; [assumption | apply of_Z_nsign; lia]|].
    apply of_Z_nsign.
    unfold isDigit in Hc. apply andb_prop in Hc as [H1 H2].
    unfold sub64, wrap64. apply Z.leb_le in H1, H2.
    rewrite Z.mod_small by (change (2 ^ 63) with 9223372036854775808;
      change (2 ^ 64) with 18446744073709551616; lia). lia.
Qed.

Lemma leadingFraction_from_inv (s : string) :
  forall x sc o f sc' r,
    leadingFraction_from x sc o s = (f, sc', r) ->
    exists ds, s = ds ++ r /\ allDigits ds = true /\ noDigitAhead r = true.
Proof.
  induction s as [|c s IH]; simpl; intros x sc o f sc' r H.
  - inversion H; subst. exists "". auto.
  - destruct (isDigit c) eqn:Hc; simpl in H.
    + assert (exists x1 sc1 o1, leadingFraction_from x1 sc1 o1 s = (f, sc', r))
        as (x1 & sc1 & o1 & H1).
      { destruct o; [eauto|].
        destruct (maxInt64 / 10 <? x); [eauto|].
        destruct (_ <? 0); eauto. }
      apply IH in H1 as (ds & -> & Hds & Hr).
      exists (String c ds). simpl. rewrite Hc. auto.
    + inversion H; subst. exists "". simpl. rewrite Hc. auto.
Qed.

Lemma leadingFraction_from_nsign (s : string) :
  forall x sc o f sc' r,
    nsign sc -> leadingFraction_from x sc o s = (f, sc', r) -> nsign sc'.
Proof.
  induction s as [|c s IH]; simpl; intros x sc o f sc' r Hsc H.
  - congruence.
  - destruct (isDigit c); simpl in H; [|congruence].
    destruct o; [eauto|].
    destruct (maxInt64 / 10 <? x); [eauto|].
    destruct (_ <? 0); [eauto|].
    eapply IH; [|eassumption]. apply mul_nsign; [assumption | apply of_Z_nsign; lia].
Qed.

(** Once the overflow flag is set, [leadingFraction] consumes the digits
    that follow and drops them. *)
Lemma leadingFraction_from_overflow (ds r : string) (x : Z) (sc : float64) :
  allDigits ds = true -> noDigitAhead r = true ->
  leadingFraction_from x sc true (ds ++ r) = (x, sc, r).
Proof.
  intros Hds Hr. induction ds as [|c ds IH]; simpl.
  - destruct r as [|c r]; simpl in *; [reflexivity|]. rewrite Hr. reflexivity.
  - simpl in Hds. apply andb_prop in Hds as [Hc Hds]. rewrite Hc. simpl. auto.
Qed.

Lemma leadingFraction_from_app (ds r : string) :
  allDigits ds = true -> noDigitAhead r = true ->
  forall x sc o,
    leadingFraction_from x sc o (ds ++ r) =
    let '(f, sc', _) := leadingFraction_from x sc o ds in (f, sc', r).
Proof.
  intros Hds Hr. induction ds as [|c ds IH]; simpl; intros x sc o.
  - destruct r as [|c r]; simpl in *; [reflexivity|]. rewrite Hr. reflexivity.
  - simpl in Hds. apply andb_prop in Hds as [Hc Hds]. rewrite Hc. simpl.
    destruct o; [auto|].
    destruct (maxInt64 / 10 <? x); [auto|].
    destruct (_ <? 0); auto.
Qed.

Lemma spanUnit_inv (s : string) :
  forall u r,
    spanUnit s = (u, r) -> s = u ++ r /\ unitBytes u = true /\ numberAhead r = true.
Proof.
  induction s as [|c s IH]; simpl; intros u r H.
  - inversion H; subst. auto.
  - destruct (isDot c || isDigit c) eqn:Hc.
    + inversion H; subst. simpl. auto.
    + destruct (spanUnit s) as [u1 r1]. inversion H; subst.
      destruct (IH _ _ eq_refl) as (-> & Hu & Hr). simpl. rewrite Hc. auto.
Qed.

Lemma spanUnit_app (u r : string) :
  unitBytes u = true -> numberAhead r = true -> spanUnit (u ++ r) = (u, r).
Proof.
  intros Hu Hr. induction u as [|c u IH]; simpl.
  - destruct r as [|c r]; simpl in *; [reflexivity|]. rewrite Hr. reflexivity.
  - simpl in Hu. apply andb_prop in Hu as [Hc Hu]. apply negb_true_iff in Hc.
    rewrite Hc, (IH Hu). reflexivity.
Qed.

Lemma scanFraction_inv (s : string) (f : Z) (sc : float64) (r : string) (post : bool) :
  scanFraction s = (f, sc, r, post) ->
  (exists p, s = p ++ r) /\ nsign sc.
Proof.
  unfold scanFraction. destruct s as [|c s].
  - intros H; inversion H; subst. split; [exists ""; reflexivity | reflexivity].
  - destruct (isDot c).
    + unfold leadingFraction.
      destruct (leadingFraction_from 0 (F64.of_Z 1) false s) as [[f1 sc1] r1] eqn:E.
      intros H; inversion H; subst. split.
      * apply leadingFraction_from_inv in E as (ds & -> & _).
        exists (String c ds). reflexivity.
      * eapply leadingFraction_from_nsign; [|eassumption]. apply of_Z_nsign; lia.
    + intros H; inversion H; subst. split; [exists ""; reflexivity | reflexivity].
Qed.

(** ** The unit table *)

Lemma assoc_In (tbl : list (string * float64)) (u : string) (x : float64) :
  assoc tbl u = Some x -> In (u, x) tbl.
Proof.
  induction tbl as [|[k y] tbl IH]; simpl; [discriminate|].
  destruct (String.eqb k u) eqn:E.
  - apply String.eqb_eq in E. intros H; inversion H; subst. auto.
  - auto.
Qed.

Lemma assoc_None (tbl : list (string * float64)) (u : string) :
  assoc tbl u = None <-> ~ In u (map fst tbl).
Proof.
  induction tbl as [|[k y] tbl IH]; simpl.
  - tauto.
  - destruct (String.eqb k u) eqn:E.
    + apply String.eqb_eq in E. split; [discriminate | tauto].
    + apply String.eqb_neq in E. tauto.
Qed.

Lemma unitTable_positive : forallb (fun kv => positiveFinite (snd kv)) unitTable = true.
Proof. vm_compute. reflexivity. Qed.

Lemma unitMap_positive (u : string) (unit : float64) :
  unitMap u = Some unit ->
  exists m e, unit = S754_finite false m e.
Proof.
  intros H. apply assoc_In in H.
  pose proof unitTable_positive as Hall. rewrite forallb_forall in Hall.
  apply Hall in H. cbn [snd] in H.
  destruct unit as [s|s| |[|] m e]; try discriminate. eauto.
Qed.

Lemma unitMap_nsign (u : string) (unit : float64) :
  unitMap u = Some unit -> nsign unit.
Proof.
  intros H. apply unitMap_positive in H as (m & e & ->). reflexivity.
Qed.

(** ** One term *)

Lemma termValue_nsign (orig : string) (v0 : float64) (f : Z) (sc unit v : float64) :
  nsign v0 -> nsign sc -> nsign unit ->
  termValue orig v0 f sc unit = Ok v -> nsign v.
Proof.
  unfold termValue. intros Hv Hsc Hu.
  destruct (F64.ltb _ v0); [discriminate|].
  destruct (0 <? f) eqn:Hf.
  - destruct (F64.ltb _ F64.zero); [discriminate|].
    intros H; inversion H; subst. apply Z.ltb_lt in Hf.
    auto with nsign zarith.
  - intros H; inversion H; subst. auto using mul_nsign.
Qed.

(** A term that parses is a number, a non-empty unit and the bytes left;
    what is left is empty or starts the next number. *)
Lemma parseTerm_inv (orig s : string) (v : float64) (s' : string) :
  parseTerm orig s = Ok (v, s') ->
  exists p u,
    s = p ++ u ++ s' /\ u <> "" /\ unitBytes u = true /\
    numberAhead s' = true /\ nsign v.
Proof.
  unfold parseTerm. destruct s as [|c0 s0]; [discriminate|].
  destruct (negb _); [discriminate|].
  unfold leadingInt.
  destruct (leadingInt_from F64.zero (String c0 s0)) as [[v0 s1]|] eqn:E1; [|discriminate].
  destruct (scanFraction s1) as [[[f sc] s2] post] eqn:E2.
  destruct (negb _ && negb _); [discriminate|].
  destruct (spanUnit s2) as [u s3] eqn:E3.
  destruct (String.length u =? 0)%nat eqn:E4; [discriminate|].
  destruct (unitMap u) as [unit|] eqn:E5; [|discriminate].
  destruct (termValue orig v0 f sc unit) as [v1|] eqn:E6; [|discriminate].
  intros H; inversion H; subst.
  pose proof (leadingInt_from_nsign _ _ _ _ (eq_refl : nsign F64.zero) E1) as Hv0.
  apply leadingInt_from_inv in E1 as (ds & E1 & _).
  apply scanFraction_inv in E2 as ((p2 & ->) & Hsc).
  apply spanUnit_inv in E3 as (-> & Hu & Hr).
  exists (ds ++ p2), u. split; [|split; [|split; [|split]]].
  - rewrite E1, append_assoc. reflexivity.
  - intros ->. discriminate.
  - assumption.
  - assumption.
  - eapply termValue_nsign;
      [exact Hv0 | exact Hsc | eapply unitMap_nsign; exact E5 | exact E6].
Qed.

Lemma parseTerm_shorter (orig s : string) (v : float64) (s' : string) :
  parseTerm orig s = Ok (v, s') -> (String.length s' < String.length s)%nat.
Proof.
  intros H. apply parseTerm_inv in H as (p & u & -> & Hu & _).
  rewrite !length_append. destruct u; [congruence | simpl; lia].
Qed.

(** The term value and the bytes left do not depend on [orig], which only
    appears in error messages. *)
Lemma parseTerm_orig (orig orig' s : string) (v : float64) (s' : string) :
  parseTerm orig s = Ok (v, s') -> parseTerm orig' s = Ok (v, s').
Proof.
  unfold parseTerm. destruct s as [|c0 s0]; [discriminate|].
  destruct (negb _); [discriminate|].
  destruct (leadingInt _) as [[v0 s1]|]; [|discriminate].
  destruct (scanFraction s1) as [[[f sc] s2] post].
  destruct (negb _ && negb _); [discriminate|].
  destruct (spanUnit s2) as [u s3].
  destruct (String.length u =? 0)%nat; [discriminate|].
  destruct (unitMap u) as [unit|]; [|discriminate].
  unfold termValue.
  destruct (F64.ltb _ v0); [discriminate|].
  destruct (0 <? f); [|auto].
  destruct (F64.ltb _ F64.zero); [discriminate | auto].
Qed.

(** ** The loop over the terms *)

(** The loop never runs out of fuel: an iteration consumes at least the
    unit of its term. *)
Lemma parseTerms_returns (fuel : nat) (orig : string) :
  forall d s, (String.length s <= fuel)%nat ->
    exists r, parseTerms fuel orig d s = Some r.
Proof.
  induction fuel as [|fuel IH]; intros d s Hlen.
  - destruct s; [simpl; eauto | simpl in Hlen; lia].
  - destruct s as [|c s]; [simpl; eauto|].
    cbn [parseTerms].
    destruct (parseTerm orig (String c s)) as [[v s']|e] eqn:E; [|eauto].
    destruct (F64.ltb _ F64.zero); [eauto|].
    apply IH. apply parseTerm_shorter in E. lia.
Qed.

Lemma ParseDistance_returns (s : string) : exists r, ParseDistance s = Some r.
Proof.
  unfold ParseDistance. destruct (consumeSign s) as [neg body].
  destruct (String.eqb body "0"); [eauto|].
  destruct (String.eqb body ""); [eauto|].
  destruct (parseTerms_returns (String.length body) s F64.zero body (le_n _)) as [r ->].
  destruct r; eauto.
Qed.

Lemma Terms_nsign (s : string) (vs : list float64) :
  Terms s vs -> Forall nsign vs.
Proof.
  induction 1 as [|s v s' vs Hv _ IH]; constructor; [|assumption].
  apply parseTerm_inv in Hv as (_ & _ & _ & _ & _ & _ & Hv). exact Hv.
Qed.

(** The accumulator of a loop that returns is the sum of the values of the
    terms, added left to right to the accumulator it started from. *)
Lemma parseTerms_sum (fuel : nat) (orig : string) :
  forall d s d', (String.length s <= fuel)%nat -> nsign d ->
    (parseTerms fuel orig d s = Some (Ok d') <->
     exists vs, Terms s vs /\ d' = fold_left F64.add vs d).
Proof.
  induction fuel as [|fuel IH]; intros d s d' Hlen Hd.
  - destruct s; [|simpl in Hlen; lia]. simpl. split.
    + intros H; inversion H; subst. exists []. split; [constructor | reflexivity].
    + intros (vs & Ht & ->). inversion Ht; subst; [reflexivity | discriminate].
  - destruct s as [|c s].
    + simpl. split.
      * intros H; inversion H; subst. exists []. split; [constructor | reflexivity].
      * intros (vs & Ht & ->). inversion Ht; subst; [reflexivity | discriminate].
    + cbn [parseTerms].
      destruct (parseTerm orig (String c s)) as [[v s']|e] eqn:E.
      * pose proof (parseTerm_inv _ _ _ _ E) as (_ & _ & _ & _ & _ & _ & Hv).
        pose proof (parseTerm_shorter _ _ _ _ E) as Hs.
        rewrite (nsign_not_lt_zero _ (add_nsign _ _ Hd Hv)).
        rewrite IH by (auto using add_nsign; lia).
        split.
        -- intros (vs & Ht & ->). exists (v :: vs). split; [|reflexivity].
           econstructor; [eapply parseTerm_orig; exact E | exact Ht].
        -- intros (vs & Ht & ->). inversion Ht as [|s0 v0 s0' vs0 Hp Ht']; subst.
           apply (parseTerm_orig _ orig) in Hp. rewrite E in Hp.
           inversion Hp; subst. exists vs0. auto.
      * split; [discriminate|].
        intros (vs & Ht & _). inversion Ht as [|s0 v0 s0' vs0 Hp Ht']; subst.
        apply (parseTerm_orig _ orig) in Hp. congruence.
Qed.

Lemma add_zero_l (v : float64) : nsign v -> F64.add F64.zero v = v.
Proof.
  unfold F64.add, F64.zero. destruct v as [s|s| |s m e]; simpl; intros H; subst; reflexivity.
Qed.

(** ** The parser *)

Lemma consumeSign_unsigned (s : string) :
  unsigned s = true -> consumeSign s = (false, s).
Proof.
  destruct s as [|c s]; simpl; [reflexivity|].
  intros H. apply negb_true_iff in H. rewrite H. reflexivity.
Qed.

Lemma consumeSign_minus (s : string) : consumeSign ("-" ++ s) = (true, s).
Proof. reflexivity. Qed.

(** What [ParseDistance] returns, in terms of the terms of the input: the
    literal zero, or the signed left-to-right sum of the values of the
    terms. *)
Lemma ParseDistance_Ok (s : string) (d : Distance) :
  ParseDistance s = Some (Ok d) <->
  (snd (consumeSign s) = "0" /\ d = F64.zero) \/
  (snd (consumeSign s) <> "0" /\ snd (consumeSign s) <> "" /\
   exists vs, Terms (snd (consumeSign s)) vs /\
     d = if fst (consumeSign s)
         then F64.opp (fold_left F64.add vs F64.zero)
         else fold_left F64.add vs F64.zero).
Proof.
  unfold ParseDistance. destruct (consumeSign s) as [neg body]. cbn [fst snd].
  destruct (String.eqb body "0") eqn:E0.
  - apply String.eqb_eq in E0. split.
    + intros H; inversion H; subst. auto.
    + intros [[_ ->]|[H _]]; [reflexivity | contradiction].
  - apply String.eqb_neq in E0.
    destruct (String.eqb body "") eqn:E1.
    + apply String.eqb_eq in E1. split; [discriminate|].
      intros [[H _]|(_ & H & _)]; contradiction.
    + apply String.eqb_neq in E1.
      pose proof (parseTerms_sum (String.length body) s F64.zero body) as Hsum.
      destruct (parseTerms (String.length body) s F64.zero body) as [[d0|e]|] eqn:E.
      * specialize (Hsum d0 (le_n _) eq_refl). destruct Hsum as [Hsum _].
        destruct (Hsum eq_refl) as (vs & Ht & ->). split.
        -- intros H; inversion H; subst. right. eauto.
        -- intros [[H _]|(_ & _ & vs' & Ht' & ->)]; [contradiction|].
           assert (parseTerms (String.length body) s F64.zero body
                   = Some (Ok (fold_left F64.add vs' F64.zero))) as Heq.
           { apply parseTerms_sum; [apply le_n | reflexivity | eauto]. }
           rewrite E in Heq. inversion Heq as [Heq']. rewrite Heq'. reflexivity.
      * split; [discriminate|].
        intros [[H _]|(_ & _ & vs & Ht & _)]; [contradiction|].
        assert (parseTerms (String.length body) s F64.zero body
                = Some (Ok (fold_left F64.add vs F64.zero))) as Heq.
        { apply parseTerms_sum; [apply le_n | reflexivity | eauto]. }
        congruence.
      * destruct (parseTerms_returns (String.length body) s F64.zero body (le_n _)).
        congruence.
Qed.

(** *** Inputs without a unit suffix *)

Lemma lastByte_app (a b : string) : b <> "" -> lastByte (a ++ b) = lastByte b.
Proof.
  intros Hb. induction a as [|c a IH]; [reflexivity|].
  cbn [append lastByte]. rewrite IH.
  destruct (a ++ b) eqn:E; [|reflexivity].
  destruct a; [simpl in E; congruence | discriminate].
Qed.

Lemma lastByte_unitBytes (u : string) :
  unitBytes u = true -> u <> "" ->
  exists c, lastByte u = Some c /\ isDot c || isDigit c = false.
Proof.
  induction u as [|c u IH]; [congruence|].
  intros Hu _. cbn [unitBytes] in Hu. apply andb_prop in Hu as [Hc Hu].
  apply negb_true_iff in Hc.
  destruct u as [|c' u]; [exists c; auto|].
  destruct (IH Hu) as (c1 & H1 & H2); [discriminate|].
  exists c1. split; [exact H1 | exact H2].
Qed.

(** A sequence of terms ends with the last byte of a unit. *)
Lemma Terms_lastByte (s : string) (vs : list float64) :
  Terms s vs -> s <> "" ->
  exists c, lastByte s = Some c /\ isDot c || isDigit c = false.
Proof.
  induction 1 as [|s v s' vs Hv Ht IH]; [congruence|]. intros _.
  apply parseTerm_inv in Hv as (p & u & -> & Hne & Hu & _).
  destruct s' as [|c' s'].
  - rewrite append_nil_r, lastByte_app by assumption.
    apply lastByte_unitBytes; assumption.
  - rewrite <- append_assoc, lastByte_app by discriminate.
    apply IH. discriminate.
Qed.

(** *** Zero, sums and signs *)

(** C2, as stated, fails: "+0" and "-0" have no unit suffix, differ from
    the literal "0", and parse to zero. *)
Lemma ParseDistance_signed_zero :
  unitless "+0" = true /\ "+0" <> "0" /\ ParseDistance "+0" = Some (Ok F64.zero) /\
  unitless "-0" = true /\ "-0" <> "0" /\ ParseDistance "-0" = Some (Ok F64.zero).
Proof. repeat split; try discriminate; vm_compute; reflexivity. Qed.

(** C2, amended. The zero special case is tested after the optional sign
    is consumed: an input without a unit suffix parses, to zero, exactly
    when what follows the sign is "0" (the inputs "0", "+0" and "-0");
    every other input without a unit suffix is an error. *)
Theorem ParseDistance_unitless (s : string) :
  unitless s = true ->
  (snd (consumeSign s) = "0" /\ ParseDistance s = Some (Ok F64.zero)) \/
  (snd (consumeSign s) <> "0" /\ exists e, ParseDistance s = Some (Err e)).
Proof.
  intros Hu.
  destruct (String.eqb (snd (consumeSign s)) "0") eqn:E0.
  - apply String.eqb_eq in E0. left. split; [assumption|].
    apply ParseDistance_Ok. left. auto.
  - apply String.eqb_neq in E0. right. split; [assumption|].
    destruct (ParseDistance_returns s) as [[d|e] Hr]; [|eauto].
    exfalso. apply ParseDistance_Ok in Hr as [[H _]|(_ & Hne & vs & Ht & _)];
      [contradiction|].
    destruct (Terms_lastByte _ _ Ht Hne) as (c & Hc & Hnum).
    unfold unitless in Hu. rewrite Hc in Hu. congruence.
Qed.

Lemma ParseDistance_unitless_12 :
  unitless "12" = true /\ exists e, ParseDistance "12" = Some (Err e).
Proof.
  split; [reflexivity|].
  destruct (ParseDistance_unitless "12" eq_refl) as [[H _]|[_ H]];
    [discriminate H | exact H].
Defined.

(** The accumulation test [d < 0] never fires: the running total and the
    term values carry no minus sign, and neither does their float64 sum,
    even when it rounds to plus infinity. *)
Lemma accumulation_test_dead (d v : float64) :
  nsign d -> nsign v -> F64.ltb (F64.add d v) F64.zero = false.
Proof. intros Hd Hv. apply nsign_not_lt_zero, add_nsign; assumption. Qed.


(** C4. "5ft11in" is 5 feet plus 11 inches, and every input that parses
    is the literal zero or the sum, from left to right, of the values of
    its terms (negated under a minus sign). *)
Theorem ParseDistance_sum_of_terms :
  ParseDistance "5ft11in"
    = Some (Ok (F64.add (F64.mul (F64.of_Z 5) Feet) (F64.mul (F64.of_Z 11) Inch))) /\
  Terms "5ft11in" [F64.mul (F64.of_Z 5) Feet; F64.mul (F64.of_Z 11) Inch] /\
  forall (s : string) (d : Distance),
    ParseDistance s = Some (Ok d) <->
    (snd (consumeSign s) = "0" /\ d = F64.zero) \/
    (snd (consumeSign s) <> "0" /\ snd (consumeSign s) <> "" /\
     exists vs, Terms (snd (consumeSign s)) vs /\
       d = if fst (consumeSign s)
           then F64.opp (fold_left F64.add vs F64.zero)
           else fold_left F64.add vs F64.zero).
Proof.
  split; [vm_compute; reflexivity|]. split.
  - apply Terms_cons with (s' := "11in"); [vm_compute; reflexivity|].
    apply Terms_cons with (s' := ""); [vm_compute; reflexivity|].
    constructor.
  - exact ParseDistance_Ok.
Qed.

(** C5. A minus sign before an unsigned sequence of terms negates the sum
    of the terms, once. (The literal "0" is not a sequence of terms: "-0"
    returns the zero of the special case, without negation.) *)
Theorem ParseDistance_minus_negates (body : string) (d : Distance) :
  unsigned body = true -> body <> "0" ->
  ParseDistance body = Some (Ok d) ->
  ParseDistance ("-" ++ body) = Some (Ok (F64.opp d)).
Proof.
  intros Hu H0 H. apply ParseDistance_Ok in H.
  rewrite (consumeSign_unsigned _ Hu) in H. cbn [fst snd] in H.
  destruct H as [[H _]|(_ & Hne & vs & Ht & ->)]; [contradiction|].
  apply ParseDistance_Ok. rewrite consumeSign_minus. cbn [fst snd].
  right. eauto.
Qed.

Lemma ParseDistance_minus_1ft1in :
  ParseDistance "-1ft1in"
    = Some (Ok (F64.opp (F64.add (F64.mul (F64.of_Z 1) Feet) (F64.mul (F64.of_Z 1) Inch)))) /\
  F64.opp (F64.add (F64.mul (F64.of_Z 1) Feet) (F64.mul (F64.of_Z 1) Inch))
    <> F64.add (F64.mul (F64.of_Z (-1)) Feet) (F64.mul (F64.of_Z 1) Inch).
Proof.
  split.
  - apply (ParseDistance_minus_negates "1ft1in");
      [reflexivity | discriminate | vm_compute; reflexivity].
  - vm_compute. discriminate.
Defined.

(** *** A single term *)

Lemma unitBytes_head (u : string) :
  unitBytes u = true -> u <> "" ->
  exists c u', u = String c u' /\ isDot c = false /\ isDigit c = false.
Proof.
  destruct u as [|c u]; [congruence|]. cbn [unitBytes]. intros H _.
  apply andb_prop in H as [H _]. apply negb_true_iff, orb_false_iff in H as [H1 H2].
  eauto.
Qed.

Lemma allDigits_head (ds : string) :
  allDigits ds = true -> ds <> "" ->
  exists c ds', ds = String c ds' /\ isDigit c = true.
Proof.
  destruct ds as [|c ds]; [congruence|]. cbn [allDigits]. intros H _.
  apply andb_prop in H as [H _]. eauto.
Qed.

Lemma eqb_add_cancel (a b : nat) : (a + b =? b)%nat = (a =? 0)%nat.
Proof.
  destruct (Nat.eqb_spec (a + b) b), (Nat.eqb_spec a 0); (reflexivity || lia).
Qed.

Lemma scanFraction_dot (fs rest : string) :
  allDigits fs = true -> noDigitAhead rest = true ->
  scanFraction ("." ++ fs ++ rest) =
  let '(f, sc, _) := leadingFraction fs in
  (f, sc, rest, negb (String.length fs =? 0)%nat).
Proof.
  intros Hfs Hrest. cbn [append scanFraction]. change (isDot ".") with true. cbv iota.
  unfold leadingFraction. rewrite leadingFraction_from_app by assumption.
  destruct (leadingFraction_from 0 (F64.of_Z 1) false fs) as [[f sc] r0].
  rewrite length_append.
  rewrite eqb_add_cancel. reflexivity.
Qed.

(** The iteration on a number with an optional fraction followed by a unit:
    the digits [ip], the period and the digits [fs] when [dot] is set, the
    unit [u], and the bytes [r] that follow. *)
Lemma parseTerm_single (orig ip fs u r : string) (dot : bool) :
  allDigits ip = true -> ip <> "" -> allDigits fs = true ->
  unitBytes u = true -> u <> "" -> numberAhead r = true ->
  parseTerm orig (ip ++ (if dot then "." ++ fs else "") ++ u ++ r) =
  match leadingInt ip with
  | None => Err (errInvalid orig)
  | Some (v, _) =>
      match unitMap u with
      | None => Err (errUnknownUnit u orig)
      | Some unit =>
          let '(f, sc) := fractionOf (if dot then "." ++ fs else "") in
          match termValue orig v f sc unit with
          | Err e => Err e
          | Ok v' => Ok (v', r)
          end
      end
  end.
Proof.
  intros Hip Hne Hfs Hu Hune Hr.
  destruct (allDigits_head _ Hip Hne) as (c & ip' & -> & Hc).
  destruct (unitBytes_head _ Hu Hune) as (cu & u' & -> & Hcu1 & Hcu2).
  set (frac := if dot then "." ++ fs else "").
  assert (noDigitAhead (frac ++ String cu u' ++ r) = true) as Hstop.
  { subst frac. destruct dot; cbn [append noDigitAhead]; [reflexivity | rewrite Hcu2; reflexivity]. }
  assert (scanFraction (frac ++ String cu u' ++ r)
          = (fst (fractionOf frac), snd (fractionOf frac), String cu u' ++ r,
             negb (String.length fs =? 0)%nat && dot)) as Hfrac.
  { subst frac. destruct dot.
    - rewrite append_assoc, scanFraction_dot;
        [|assumption | cbn [append noDigitAhead]; rewrite Hcu2; reflexivity].
      cbn [append fractionOf]. destruct (leadingFraction fs) as [[f sc] r0].
      rewrite andb_true_r. reflexivity.
    - cbn [append scanFraction fractionOf fst snd]. rewrite Hcu1, andb_false_r. reflexivity. }
  set (tail := frac ++ String cu u' ++ r) in *.
  change (String c ip' ++ tail) with (String c (ip' ++ tail)).
  cbn [parseTerm]. rewrite Hc, orb_true_r. cbv iota. cbn [negb].
  change (String c (ip' ++ tail)) with (String c ip' ++ tail).
  unfold leadingInt. rewrite leadingInt_from_app by assumption.
  destruct (leadingInt_from F64.zero (String c ip')) as [[v r0]|]; [|reflexivity].
  rewrite (leadingInt_from_stop _ _ Hstop), Hfrac.
  rewrite length_append, eqb_add_cancel. cbn [String.length Nat.eqb negb andb].
  rewrite spanUnit_app by assumption.
  cbn [String.length Nat.eqb].
  destruct (unitMap (String cu u')) as [unit|]; [|reflexivity].
  destruct (fractionOf frac) as [f sc]. reflexivity.
Qed.

Lemma ParseDistance_one_term (t : string) :
  unsigned t = true -> t <> "0" -> t <> "" ->
  ParseDistance t =
  match parseTerm t t with
  | Err e => Some (Err e)
  | Ok (v, EmptyString) => Some (Ok v)
  | Ok (v, s') => parseTerms (Nat.pred (String.length t)) t (F64.add F64.zero v) s'
  end.
Proof.
  intros Hu H0 Hne. unfold ParseDistance.
  rewrite (consumeSign_unsigned _ Hu).
  apply String.eqb_neq in H0. rewrite H0.
  destruct t as [|c t]; [congruence|]. cbn [String.eqb String.length parseTerms Nat.pred].
  destruct (parseTerm (String c t) (String c t)) as [[v s']|e] eqn:E; [|reflexivity].
  apply parseTerm_inv in E as (_ & _ & _ & _ & _ & _ & Hv).
  rewrite (accumulation_test_dead F64.zero v eq_refl Hv).
  destruct s' as [|c' s'].
  - rewrite add_zero_l by assumption. destruct t; reflexivity.
  - destruct (parseTerms _ _ _ _) as [[d|e]|]; reflexivity.
Qed.

Lemma digit_unsigned (c : ascii) (s : string) :
  isDigit c = true -> unsigned (String c s) = true.
Proof.
  unfold isDigit, unsigned, isMinus, isPlus. intros H.
  apply andb_prop in H as [H _]. apply Z.leb_le in H.
  apply negb_true_iff, orb_false_iff. split; apply Z.eqb_neq; lia.
Qed.

(** What [ParseDistance] returns on a single term: a run of digits [ip],
    an optional fraction (a period and the digits [fs]) and a unit [u]. *)
Lemma ParseDistance_single (ip fs u : string) (dot : bool) :
  allDigits ip = true -> ip <> "" -> allDigits fs = true ->
  unitBytes u = true -> u <> "" ->
  ParseDistance (ip ++ (if dot then "." ++ fs else "") ++ u) =
  match leadingInt ip with
  | None => Some (Err (errInvalid (ip ++ (if dot then "." ++ fs else "") ++ u)))
  | Some (v, _) =>
      match unitMap u with
      | None => Some (Err (errUnknownUnit u (ip ++ (if dot then "." ++ fs else "") ++ u)))
      | Some unit =>
          let '(f, sc) := fractionOf (if dot then "." ++ fs else "") in
          match termValue (ip ++ (if dot then "." ++ fs else "") ++ u) v f sc unit with
          | Err e => Some (Err e)
          | Ok v' => Some (Ok v')
          end
      end
  end.
Proof.
  intros Hip Hne Hfs Hu Hune.
  set (t := ip ++ (if dot then "." ++ fs else "") ++ u).
  pose proof (parseTerm_single t ip fs u "" dot Hip Hne Hfs Hu Hune eq_refl) as Hp.
  rewrite append_nil_r in Hp. fold t in Hp.
  assert (2 <= String.length t)%nat as Hlen.
  { subst t. rewrite !length_append. destruct ip; [congruence|].
    destruct u; [congruence|]. simpl. lia. }
  rewrite ParseDistance_one_term.
  - rewrite Hp. destruct (leadingInt ip) as [[v r0]|]; [|reflexivity].
    destruct (unitMap u) as [unit|]; [|reflexivity].
    destruct (fractionOf _) as [f sc].
    destruct (termValue t v f sc unit); reflexivity.
  - destruct (allDigits_head _ Hip Hne) as (c & ip' & -> & Hc).
    apply (digit_unsigned c), Hc.
  - intros E. rewrite E in Hlen. simpl in Hlen. lia.
  - intros E. rewrite E in Hlen. simpl in Hlen. lia.
Qed.

(** The iteration on a term without integer digits: a period, the digits
    [fs] and a unit. *)
Lemma parseTerm_fraction_only (orig fs u r : string) :
  allDigits fs = true -> fs <> "" ->
  unitBytes u = true -> u <> "" -> numberAhead r = true ->
  parseTerm orig ("." ++ fs ++ u ++ r) =
  match unitMap u with
  | None => Err (errUnknownUnit u orig)
  | Some unit =>
      let '(f, sc) := fractionOf ("." ++ fs) in
      match termValue orig F64.zero f sc unit with
      | Err e => Err e
      | Ok v' => Ok (v', r)
      end
  end.
Proof.
  intros Hfs Hne Hu Hune Hr.
  destruct (unitBytes_head _ Hu Hune) as (cu & u' & -> & Hcu1 & Hcu2).
  assert (noDigitAhead (String cu u' ++ r) = true) as Hstop
    by (cbn [append noDigitAhead]; rewrite Hcu2; reflexivity).
  pose proof (scanFraction_dot fs (String cu u' ++ r) Hfs Hstop) as Hfrac.
  set (tail := fs ++ String cu u' ++ r) in *.
  change ("." ++ tail) with (String "." tail) in *.
  cbn [parseTerm]. change (isDot ".") with true. cbn [orb negb].
  unfold leadingInt. rewrite leadingInt_from_stop by reflexivity.
  rewrite Hfrac, Nat.eqb_refl.
  change ("." ++ fs) with (String "." fs). cbn [fractionOf].
  destruct (leadingFraction fs) as [[f sc] r0].
  destruct (String.length fs =? 0)%nat eqn:E.
  - apply Nat.eqb_eq in E. destruct fs; [congruence | discriminate].
  - cbn [negb andb]. rewrite spanUnit_app by assumption.
    cbn [String.length Nat.eqb].
    destruct (unitMap (String cu u')) as [unit|]; reflexivity.
Qed.

(** Adding a fraction to a term value that passed the integer overflow
    test never fails. *)
Lemma termValue_fraction (orig orig' : string) (v : float64) (f : Z) (sc unit d : float64) :
  nsign v -> nsign sc -> nsign unit ->
  termValue orig v 0 (F64.of_Z 1) unit = Ok d ->
  termValue orig' v f sc unit =
  Ok (if 0 <? f then F64.add d (F64.mul (F64.of_Z f) (F64.div unit sc)) else d).
Proof.
  intros Hv Hsc Hunit. unfold termValue.
  destruct (F64.ltb (F64.div (F64.of_Z maxInt64) unit) v); [discriminate|].
  change (0 <? 0) with false. cbv iota. intros H. injection H as <-.
  destruct (0 <? f) eqn:Hf; [|reflexivity].
  apply Z.ltb_lt in Hf.
  rewrite nsign_not_lt_zero; [reflexivity|].
  auto with nsign zarith.
Qed.

(** C6. For fractional digits [fs] and a unit [u], however many digits
    [fs] has:
    - if a term [ip ++ u] parses to [d], alone or in front of further
      terms [r], then the term with the fraction parses too, to
      [d + f*(unit/scale)] where [f] and [scale] are what
      [leadingFraction] kept of [fs];
    - a term without integer digits, a period and the digits [fs], parses
      whenever [u] is a unit;
    - once its overflow flag is set, [leadingFraction] consumes and drops
      the digits that follow;
    - an integer part on which [leadingInt] overflows is rejected, with or
      without a fraction. *)
Theorem fraction_digits_never_rejected (fs u : string) :
  allDigits fs = true -> unitBytes u = true -> u <> "" ->
  (forall ip d, allDigits ip = true -> ip <> "" ->
     ParseDistance (ip ++ u) = Some (Ok d) ->
     exists unit, unitMap u = Some unit /\
       ParseDistance (ip ++ "." ++ fs ++ u) =
       Some (Ok (let '(f, scale, _) := leadingFraction fs in
                 if 0 <? f then F64.add d (F64.mul (F64.of_Z f) (F64.div unit scale))
                 else d))) /\
  (forall orig ip r d, allDigits ip = true -> ip <> "" -> numberAhead r = true ->
     parseTerm orig (ip ++ u ++ r) = Ok (d, r) ->
     exists unit, unitMap u = Some unit /\
       parseTerm orig (ip ++ "." ++ fs ++ u ++ r) =
       Ok (let '(f, scale, _) := leadingFraction fs in
           if 0 <? f then F64.add d (F64.mul (F64.of_Z f) (F64.div unit scale))
           else d, r)) /\
  (forall unit, fs <> "" -> unitMap u = Some unit ->
     exists d, parseTerm ("." ++ fs ++ u) ("." ++ fs ++ u) = Ok (d, "") /\
               ParseDistance ("." ++ fs ++ u) = Some (Ok d)) /\
  (forall x scale extra r, allDigits extra = true -> noDigitAhead r = true ->
     leadingFraction_from x scale true (extra ++ r) = (x, scale, r)) /\
  (forall ip, allDigits ip = true -> ip <> "" -> leadingInt ip = None ->
     ParseDistance (ip ++ u) = Some (Err (errInvalid (ip ++ u))) /\
     ParseDistance (ip ++ "." ++ fs ++ u) = Some (Err (errInvalid (ip ++ "." ++ fs ++ u)))).
Proof.
  intros Hfs Hu Hune.
  assert (forall f sc r1, leadingFraction fs = (f, sc, r1) -> nsign sc) as Hscale.
  { intros f sc r1 Ef. eapply leadingFraction_from_nsign; [|exact Ef]. reflexivity. }
  split; [|split; [|split; [|split]]].
  - intros ip d Hip Hne Hd.
    pose proof (ParseDistance_single ip fs u false Hip Hne Hfs Hu Hune) as H0.
    pose proof (ParseDistance_single ip fs u true Hip Hne Hfs Hu Hune) as H1.
    cbv iota in H0, H1. change ("" ++ u) with u in H0. rewrite append_assoc in H1.
    cbn [fractionOf append] in H0, H1.
    change ("." ++ fs ++ u) with (String "." (fs ++ u)).
    rewrite Hd in H0. rewrite H1. clear H1.
    unfold leadingInt in *.
    destruct (leadingInt_from F64.zero ip) as [[v r0]|] eqn:Ev; [|discriminate].
    destruct (unitMap u) as [unit|] eqn:Eu; [|discriminate].
    exists unit. split; [reflexivity|].
    destruct (leadingFraction fs) as [[f sc] r1] eqn:Ef.
    pose proof (leadingInt_from_nsign _ _ _ _ (eq_refl : nsign F64.zero) Ev) as Hv.
    destruct (termValue (ip ++ u) v 0 (F64.of_Z 1) unit) as [d0|] eqn:Et; [|discriminate].
    injection H0 as ->.
    rewrite (termValue_fraction _ _ _ _ _ _ _ Hv (Hscale _ _ _ eq_refl)
               (unitMap_nsign _ _ Eu) Et).
    reflexivity.
  - intros orig ip r d Hip Hne Hr Hd.
    pose proof (parseTerm_single orig ip fs u r false Hip Hne Hfs Hu Hune Hr) as H0.
    pose proof (parseTerm_single orig ip fs u r true Hip Hne Hfs Hu Hune Hr) as H1.
    cbv iota in H0, H1. change ("" ++ u ++ r) with (u ++ r) in H0.
    rewrite append_assoc in H1. cbn [fractionOf append] in H0, H1.
    change ("." ++ fs ++ u ++ r) with (String "." (fs ++ u ++ r)).
    rewrite Hd in H0. rewrite H1. clear H1.
    unfold leadingInt in *.
    destruct (leadingInt_from F64.zero ip) as [[v r0]|] eqn:Ev; [|discriminate].
    destruct (unitMap u) as [unit|] eqn:Eu; [|discriminate].
    exists unit. split; [reflexivity|].
    destruct (leadingFraction fs) as [[f sc] r1] eqn:Ef.
    pose proof (leadingInt_from_nsign _ _ _ _ (eq_refl : nsign F64.zero) Ev) as Hv.
    destruct (termValue orig v 0 (F64.of_Z 1) unit) as [d0|] eqn:Et; [|discriminate].
    injection H0 as ->.
    rewrite (termValue_fraction _ _ _ _ _ _ _ Hv (Hscale _ _ _ eq_refl)
               (unitMap_nsign _ _ Eu) Et).
    reflexivity.
  - intros unit Hne Eu.
    pose proof (parseTerm_fraction_only ("." ++ fs ++ u) fs u "" Hfs Hne Hu Hune eq_refl) as Hp.
    rewrite append_nil_r, Eu in Hp. cbn [fractionOf append] in Hp.
    destruct (leadingFraction fs) as [[f sc] r1] eqn:Ef.
    assert (termValue ("." ++ fs ++ u) F64.zero 0 (F64.of_Z 1) unit
            = Ok (F64.mul F64.zero unit)) as Et.
    { unfold termValue.
      rewrite nsign_not_lt_zero; [reflexivity|].
      apply div_nsign; [apply of_Z_nsign; unfold maxInt64; lia|].
      exact (unitMap_nsign _ _ Eu). }
    change (String "." (fs ++ u)) with ("." ++ fs ++ u) in Hp.
    rewrite (termValue_fraction _ ("." ++ fs ++ u) F64.zero f sc _ _ eq_refl
               (Hscale _ _ _ eq_refl) (unitMap_nsign _ _ Eu) Et) in Hp.
    eexists. split; [exact Hp|].
    rewrite ParseDistance_one_term; [rewrite Hp; reflexivity | reflexivity | | ];
      discriminate.
  - intros x scale extra r. apply leadingFraction_from_overflow.
  - intros ip Hip Hne Hov.
    pose proof (ParseDistance_single ip fs u false Hip Hne Hfs Hu Hune) as H0.
    pose proof (ParseDistance_single ip fs u true Hip Hne Hfs Hu Hune) as H1.
    cbv iota in H0, H1. change ("" ++ u) with u in H0. rewrite append_assoc in H1.
    rewrite Hov in H0, H1. auto.
Qed.

Lemma fraction_digits_30_nines :
  (exists unit, unitMap "nm" = Some unit /\
     ParseDistance "1.999999999999999999999999999999nm" =
     Some (Ok (F64.add (F64.of_Z 1)
                 (F64.mul (F64.of_Z 999999999999999999)
                    (F64.div unit (F64.of_Z (10 ^ 18))))))) /\
  ParseDistance "99999999999999999999.5nm"
    = Some (Err (errInvalid "99999999999999999999.5nm")).
Proof.
  split.
  - destruct (fraction_digits_never_rejected
                "999999999999999999999999999999" "nm"
                eq_refl eq_refl ltac:(discriminate))
      as (H & _).
    destruct (H "1" (F64.of_Z 1) eq_refl ltac:(discriminate)
                ltac:(vm_compute; reflexivity)) as (unit & Hu & Hp).
    exists unit. split; [exact Hu|]. exact Hp.
  - destruct (fraction_digits_never_rejected "5" "nm"
                eq_refl eq_refl ltac:(discriminate))
      as (_ & _ & _ & _ & H).
    exact (proj2 (H "99999999999999999999" eq_refl ltac:(discriminate)
                    ltac:(vm_compute; reflexivity))).
Defined.

Lemma unitMap_names (u : string) :
  (exists x, unitMap u = Some x) <-> In u unitNames.
Proof.
  change unitNames with (map fst unitTable). unfold unitMap. split.
  - intros [x H]. apply assoc_In in H. apply (in_map fst) in H. exact H.
  - intros H. destruct (assoc unitTable u) as [x|] eqn:E; [eauto|].
    apply assoc_None in E. contradiction.
Qed.

(** C9. The unit table has exactly the thirteen names of [unitNames], the
    three spellings of the micrometer all map to [Micrometer], a number
    followed by any other unit is the unknown-unit error, and a zero
    followed by one of the thirteen names parses. *)
Theorem unit_suffixes_exact :
  (forall u, (exists x, unitMap u = Some x) <-> In u unitNames) /\
  (unitMap "um" = Some Micrometer /\
   unitMap (micro_sign ++ "m") = Some Micrometer /\
   unitMap (greek_mu ++ "m") = Some Micrometer) /\
  (forall ip u,
     allDigits ip = true -> ip <> "" -> unitBytes u = true -> u <> "" ->
     leadingInt ip <> None -> ~ In u unitNames ->
     ParseDistance (ip ++ u) = Some (Err (errUnknownUnit u (ip ++ u)))) /\
  (forall u, In u unitNames -> ParseDistance ("0" ++ u) = Some (Ok F64.zero)).
Proof.
  split; [exact unitMap_names|]. split; [vm_compute; auto|]. split.
  - intros ip u Hip Hne Hu Hune Hint Hnot.
    pose proof (ParseDistance_single ip "" u false Hip Hne eq_refl Hu Hune) as H.
    cbv iota in H. change ("" ++ u) with u in H. rewrite H.
    destruct (leadingInt ip) as [[v r0]|]; [|congruence].
    destruct (unitMap u) as [unit|] eqn:E; [|reflexivity].
    exfalso. apply Hnot, unitMap_names. eauto.
  - intros u H. unfold unitNames in H. cbn [In] in H.
    repeat (destruct H as [<-|H]; [vm_compute; reflexivity|]).
    contradiction.
Qed.

Lemma unit_suffixes_0ms :
  ParseDistance "0ms" = Some (Err (errUnknownUnit "ms" "0ms")) /\
  ParseDistance "0M" = Some (Err (errUnknownUnit "M" "0M")) /\
  ParseDistance "0m" = Some (Ok F64.zero).
Proof.
  destruct unit_suffixes_exact as (_ & _ & Hbad & Hgood).
  split; [|split].
  - apply (Hbad "0" "ms"); try reflexivity; try discriminate.
    vm_compute. intuition discriminate.
  - apply (Hbad "0" "M"); try reflexivity; try discriminate.
    vm_compute. intuition discriminate.
  - apply (Hgood "m"). vm_compute. auto 10.
Defined.

(** *** The overflow tests *)

(** A float64 that is at least 1 exceeds (1<<63-1)/Lightyear, which is
    about 9.7e-7. *)
Lemma lightyear_bound_below_one (v : float64) :
  F64.leb (F64.of_Z 1) v = true ->
  F64.ltb (F64.div (F64.of_Z maxInt64) Lightyear) v = true.
Proof.
  replace (F64.div (F64.of_Z maxInt64) Lightyear)
    with (S754_finite false 4603756787430517 (-72)) by (vm_compute; reflexivity).
  replace (F64.of_Z 1) with (S754_finite false 4503599627370496 (-52))
    by (vm_compute; reflexivity).
  unfold F64.leb, F64.ltb, SFleb, SFltb.
  destruct v as [s|s| |s m e]; cbn -[Z.compare Pos.compare_cont];
    try destruct s; intros H; try discriminate H; try reflexivity.
  destruct (Z.compare_spec (-52) e), (Z.compare_spec (-72) e);
    try discriminate H; try reflexivity; lia.
Qed.

(** C1 (the code departs from the claim). The doc comment of
    [ParseDistance] gives "-1.5ly" as a distance string, and -1.5 light-years
    is a finite float64, yet the parser rejects the input: the test
    [v > (1<<63-1)/unit], written for an integer nanosecond count, fails
    every light-year term whose integer part is at least 1. *)
Theorem ParseDistance_lightyear_rejected :
  ParseDistance "-1.5ly" = Some (Err (errInvalid "-1.5ly")) /\
  ParseDistance "1ly" = Some (Err (errInvalid "1ly")) /\
  F64.mul (F64.opp (F64.lit 15 1)) Lightyear = S754_finite true 6608432158827782 31 /\
  (forall ip fs v r0 (dot : bool),
     allDigits ip = true -> ip <> "" -> allDigits fs = true ->
     leadingInt ip = Some (v, r0) -> F64.leb (F64.of_Z 1) v = true ->
     ParseDistance (ip ++ (if dot then "." ++ fs else "") ++ "ly") =
     Some (Err (errInvalid (ip ++ (if dot then "." ++ fs else "") ++ "ly")))).
Proof.
  split; [vm_compute; reflexivity|]. split; [vm_compute; reflexivity|].
  split; [vm_compute; reflexivity|].
  intros ip fs v r0 dot Hip Hne Hfs Hv H1.
  rewrite (ParseDistance_single ip fs "ly" dot Hip Hne Hfs eq_refl ltac:(discriminate)).
  rewrite Hv. change (unitMap "ly") with (Some Lightyear). cbv iota.
  destruct (fractionOf _) as [f sc]. unfold termValue.
  rewrite (lightyear_bound_below_one v H1). reflexivity.
Qed.


(** ** The unit constants *)

(** C8. Every constant is the float64 product that the table gives, and
    its value: the metric units are powers of ten, an inch is 25400000 nm,
    a foot 304800000 nm, and a light-year is the float64 nearest to
    9.461e24 (which is 9460999999999999746244608). *)
Theorem unit_constants_exact :
  Nanometer = F64.of_Z 1 /\
  (Micrometer = F64.mul (F64.of_Z 1000) Nanometer /\ Micrometer = F64.of_Z 1000) /\
  (Millimeter = F64.mul (F64.of_Z 1000) Micrometer /\ Millimeter = F64.of_Z (10 ^ 6)) /\
  (Centimeter = F64.mul (F64.of_Z 10) Millimeter /\ Centimeter = F64.of_Z (10 ^ 7)) /\
  (Meter = F64.mul (F64.of_Z 1000) Millimeter /\ Meter = F64.of_Z (10 ^ 9)) /\
  (Kilometer = F64.mul (F64.of_Z 1000) Meter /\ Kilometer = F64.of_Z (10 ^ 12)) /\
  (Inch = F64.mul (F64.lit 254 2) Centimeter /\ Inch = F64.of_Z 25400000) /\
  (Feet = F64.mul (F64.lit 3048 1) Millimeter /\ Feet = F64.of_Z 304800000) /\
  (Yard = F64.mul (F64.of_Z 3) Feet /\ Yard = F64.of_Z 914400000) /\
  (Mile = F64.mul (F64.of_Z 5280) Feet /\ Mile = F64.of_Z 1609344000000) /\
  (Lightyear = F64.mul (F64.of_Z 9461000000000) Kilometer /\
   Lightyear = F64.of_Z (9461 * 10 ^ 21) /\
   Lightyear = F64.of_Z 9460999999999999746244608).
Proof. vm_compute. repeat split. Qed.

(** ** Formatting *)

Lemma below_positive (c d : float64) :
  F64.ltb F64.zero c = true -> F64.ltb d F64.zero = true -> F64.leb c d = false.
Proof.
  unfold F64.ltb, F64.leb, F64.zero, SFltb, SFleb.
  destruct c as [sc|sc| |sc mc ec], d as [sd|sd| |sd md ed]; simpl;
    try destruct sc; try destruct sd; intros Hc Hd; try discriminate; reflexivity.
Qed.

Lemma negative_not_zero (d : float64) :
  F64.ltb d F64.zero = true -> F64.eqb d F64.zero = false.
Proof.
  unfold F64.ltb, F64.eqb, F64.zero, SFltb, SFeqb.
  destruct d as [sd|sd| |sd md ed]; simpl; try destruct sd; intros Hd;
    try discriminate; reflexivity.
Qed.

(** C10. A strictly negative distance is below every threshold and is not
    zero: it is printed in nanometers in metric mode and in inches in
    imperial mode, whatever its magnitude. *)
Theorem negative_falls_through (d : Distance) :
  F64.ltb d F64.zero = true ->
  printMetric d = fmt_f (F64.div d Nanometer) ++ "nm" /\
  printImperial d = fmt_f (F64.div d Inch) ++ "in".
Proof.
  intros Hd. unfold printMetric, printImperial.
  rewrite !(fun c Hc => below_positive c d Hc Hd) by (vm_compute; reflexivity).
  rewrite (negative_not_zero d Hd). split; reflexivity.
Qed.

Lemma negative_2km_in_nm :
  printMetric (F64.opp (F64.mul (F64.of_Z 2) Kilometer)) = "-2000000000000.000000nm" /\
  printImperial (F64.opp (F64.mul (F64.of_Z 2) Kilometer)) = "-78740.157480in".
Proof.
  destruct (negative_falls_through (F64.opp (F64.mul (F64.of_Z 2) Kilometer))
              ltac:(vm_compute; reflexivity)) as [H1 H2].
  split; [rewrite H1 | rewrite H2]; vm_compute; reflexivity.
Defined.

Lemma isDigit_digit_char (d : Z) : 0 <= d < 10 -> isDigit (digit_char d) = true.
Proof.
  intros H.
  assert (d = 0 \/ d = 1 \/ d = 2 \/ d = 3 \/ d = 4 \/ d = 5 \/ d = 6 \/ d = 7 \/
          d = 8 \/ d = 9) as Hd by lia.
  repeat (destruct Hd as [->|Hd]; [reflexivity|]). subst. reflexivity.
Qed.

Lemma frac6_digits (r : Z) : allDigits (frac6 r) = true /\ String.length (frac6 r) = 6%nat.
Proof.
  split; [|reflexivity]. unfold frac6. cbn [allDigits].
  rewrite !isDigit_digit_char by (apply Z.mod_pos_bound; lia). reflexivity.
Qed.

Lemma string_of_uint_digits (d : Decimal.uint) :
  allDigits (NilEmpty.string_of_uint d) = true.
Proof. induction d; simpl; auto. Qed.

Lemma dec_string_digits (n : Z) : allDigits (dec_string n) = true /\ dec_string n <> "".
Proof.
  unfold dec_string, NilZero.string_of_uint.
  destruct (N.to_uint (Z.to_N n)) eqn:E;
    (split; [try reflexivity; apply string_of_uint_digits | simpl; discriminate]).
Qed.

Lemma fmt_f_sixDigits (x : float64) : finiteOrZero x = true -> sixDigits (fmt_f x).
Proof.
  destruct x as [s|s| |s m e]; try discriminate; intros _; unfold fmt_f.
  - exists (if s then "-" else ""), "0", "000000".
    repeat split; try reflexivity; try discriminate.
    destruct s; auto.
  - exists (if s then "-" else ""), (dec_string (micro_units m e / 1000000)),
      (frac6 (micro_units m e mod 1000000)).
    pose proof (dec_string_digits (micro_units m e / 1000000)) as [H1 H2].
    pose proof (frac6_digits (micro_units m e mod 1000000)) as [H3 H4].
    repeat split; try assumption. destruct s; auto.
Qed.

(** C7. In metric mode the unit is chosen by the descending thresholds,
    the quotient is printed by the verb [%f], which gives six fractional
    digits to every finite quotient, the exact zero is "0m", and the
    micrometer suffix starts with the micro sign (bytes C2 B5), not with
    the letter u. *)
Theorem printMetric_thresholds :
  (forall d,
     printMetric d =
     match metricUnit d with
     | Some (unit, suffix) => fmt_f (F64.div d unit) ++ suffix
     | None => "0m"
     end) /\
  (forall x, finiteOrZero x = true -> sixDigits (fmt_f x)) /\
  printMetric (F64.mul (F64.of_Z 2) Kilometer) = "2000.000000m" /\
  printMetric F64.zero = "0m" /\
  printMetric (F64.mul (F64.of_Z 2) Micrometer) = "2.000000" ++ micro_sign ++ "m" /\
  micro_sign <> "u".
Proof.
  split; [|split; [exact fmt_f_sixDigits | vm_compute; repeat split; discriminate]].
  intros d. unfold printMetric, metricUnit.
  replace (F64.mul (F64.of_Z 1) Meter) with Meter by (vm_compute; reflexivity).
  replace (F64.mul (F64.of_Z 1) Centimeter) with Centimeter by (vm_compute; reflexivity).
  replace (F64.mul (F64.of_Z 1) Millimeter) with Millimeter by (vm_compute; reflexivity).
  replace (F64.mul (F64.of_Z 1) Micrometer) with Micrometer by (vm_compute; reflexivity).
  destruct (F64.leb Meter d); [reflexivity|].
  destruct (F64.leb Centimeter d); [reflexivity|].
  destruct (F64.leb Millimeter d); [reflexivity|].
  destruct (F64.leb Micrometer d); [reflexivity|].
  destruct (F64.eqb d F64.zero); reflexivity.
Qed.

(** * Further properties *)

(** ** Termination of the parsing loop *)

Lemma parseTerms_fuel (fuel : nat) (orig : string) :
  forall fuel' d s,
    (String.length s <= fuel)%nat -> (String.length s <= fuel')%nat ->
    parseTerms fuel orig d s = parseTerms fuel' orig d s.
Proof.
  induction fuel as [|fuel IH]; intros fuel' d s H1 H2.
  - destruct s; [destruct fuel'; reflexivity | simpl in H1; lia].
  - destruct s as [|c s]; [destruct fuel'; reflexivity|].
    destruct fuel' as [|fuel']; [simpl in H2; lia|].
    cbn [parseTerms].
    destruct (parseTerm orig (String c s)) as [[v s']|e] eqn:E; [|reflexivity].
    destruct (F64.ltb _ F64.zero); [reflexivity|].
    apply parseTerm_shorter in E. simpl in H1, H2, E. apply IH; lia.
Qed.

(** X1. Every iteration of the loop consumes at least one byte, so the
    parser returns for every input, and the number of iterations allowed
    does not matter once it reaches the length of the input. *)
Theorem ParseDistance_terminates :
  (forall orig s v s', parseTerm orig s = Ok (v, s') ->
     (String.length s' < String.length s)%nat) /\
  (forall s, exists r, ParseDistance s = Some r) /\
  (forall fuel orig d s, (String.length s <= fuel)%nat ->
     parseTerms fuel orig d s = parseTerms (String.length s) orig d s).
Proof.
  split; [exact parseTerm_shorter|]. split; [exact ParseDistance_returns|].
  intros fuel orig d s H. apply parseTerms_fuel; [exact H | apply le_n].
Qed.

(** ** The errors of the parser *)

Lemma parseTerm_Err (orig s e : string) :
  parseTerm orig s = Err e -> parseError orig e.
Proof.
  unfold parseTerm, parseError. destruct s as [|c0 s0]; [intros [= <-]; auto|].
  destruct (negb _); [intros [= <-]; auto|].
  destruct (leadingInt _) as [[v0 s1]|]; [|intros [= <-]; auto].
  destruct (scanFraction s1) as [[[f sc] s2] post].
  destruct (negb _ && negb _); [intros [= <-]; auto|].
  destruct (spanUnit s2) as [u s3] eqn:E3.
  destruct (String.length u =? 0)%nat eqn:E4; [intros [= <-]; auto|].
  destruct (unitMap u) as [unit|] eqn:E5.
  - unfold termValue.
    destruct (F64.ltb _ v0); [intros [= <-]; auto|].
    destruct (0 <? f); [|discriminate].
    destruct (F64.ltb _ F64.zero); [intros [= <-]; auto | discriminate].
  - intros [= <-]. right. right. exists u.
    apply spanUnit_inv in E3 as (_ & Hu & _).
    repeat split; try assumption. intros ->. discriminate.
Qed.

Lemma parseTerms_Err (fuel : nat) (orig : string) :
  forall d s e, parseTerms fuel orig d s = Some (Err e) -> parseError orig e.
Proof.
  induction fuel as [|fuel IH]; intros d s e; destruct s as [|c s];
    cbn [parseTerms]; try discriminate.
  destruct (parseTerm orig (String c s)) as [[v s']|e0] eqn:E.
  - destruct (F64.ltb _ F64.zero); [intros [= <-]; left; reflexivity | apply IH].
  - intros [= <-]. eapply parseTerm_Err, E.
Qed.

(** X2. Every error of the parser is one of three messages, each quoting
    the whole input with its sign: invalid distance, missing unit, or
    unknown unit, the unit named being a non-empty run of bytes without
    digits and periods that is not in the table. *)
Theorem ParseDistance_errors (s e : string) :
  ParseDistance s = Some (Err e) ->
  e = errInvalid s \/ e = errMissingUnit s \/
  exists u, u <> "" /\ unitBytes u = true /\ unitMap u = None /\
            e = errUnknownUnit u s.
Proof.
  unfold ParseDistance. destruct (consumeSign s) as [neg body].
  destruct (String.eqb body "0"); [discriminate|].
  destruct (String.eqb body ""); [intros [= <-]; auto|].
  destruct (parseTerms _ _ _ _) as [[d|e0]|] eqn:E; try discriminate.
  intros [= <-]. exact (parseTerms_Err _ _ _ _ _ E).
Qed.

Lemma ParseDistance_errors_examples :
  (ParseDistance "+5m3" = Some (Err (errMissingUnit "+5m3"))) /\
  (errInvalid "-.ly" = errInvalid "-.ly" \/ errInvalid "-.ly" = errMissingUnit "-.ly" \/
   exists u, u <> "" /\ unitBytes u = true /\ unitMap u = None /\
             errInvalid "-.ly" = errUnknownUnit u "-.ly").
Proof.
  split; [vm_compute; reflexivity|].
  apply (ParseDistance_errors "-.ly"). vm_compute. reflexivity.
Defined.

(** ** The sign of the result *)

Lemma fold_add_nsign (vs : list float64) :
  Forall nsign vs -> forall d, nsign d -> nsign (fold_left F64.add vs d).
Proof.
  induction 1 as [|v vs Hv _ IH]; intros d Hd; [exact Hd|].
  cbn [fold_left]. apply IH, add_nsign; assumption.
Qed.

Lemma nsign_opp_not_gt_zero (x : float64) :
  nsign x -> F64.ltb F64.zero (F64.opp x) = false.
Proof.
  unfold F64.ltb, F64.opp, F64.zero.
  destruct x as [s|s| |s m e]; simpl; intros H; subst; reflexivity.
Qed.

(** X3. The sign of a parsed distance is that of the input: without a
    minus sign the result is never below zero, with a minus sign it is
    never above zero. *)
Theorem ParseDistance_sign (s : string) (d : Distance) :
  ParseDistance s = Some (Ok d) ->
  (fst (consumeSign s) = false -> F64.ltb d F64.zero = false) /\
  (fst (consumeSign s) = true -> F64.ltb F64.zero d = false).
Proof.
  intros H. apply ParseDistance_Ok in H as [[_ ->]|(_ & _ & vs & Ht & ->)].
  - split; reflexivity.
  - pose proof (fold_add_nsign vs (Terms_nsign _ _ Ht) F64.zero eq_refl) as Hn.
    split; intros ->.
    + apply nsign_not_lt_zero, Hn.
    + apply nsign_opp_not_gt_zero, Hn.
Qed.

Lemma ParseDistance_sign_minus_1nm :
  F64.ltb F64.zero (F64.opp Nanometer) = false.
Proof.
  apply (ParseDistance_sign "-1nm" (F64.opp Nanometer)); vm_compute; reflexivity.
Defined.

(** X4. A plus sign changes nothing: an unsigned input and the same input
    after a plus sign parse to the same distance. *)
Theorem ParseDistance_plus_neutral (body : string) (d : Distance) :
  unsigned body = true ->
  (ParseDistance ("+" ++ body) = Some (Ok d) <-> ParseDistance body = Some (Ok d)).
Proof.
  intros Hu. rewrite !ParseDistance_Ok.
  rewrite (consumeSign_unsigned _ Hu).
  change (consumeSign ("+" ++ body)) with (false, body). reflexivity.
Qed.

Lemma ParseDistance_plus_5ft11in :
  ParseDistance "+5ft11in"
    = Some (Ok (F64.add (F64.mul (F64.of_Z 5) Feet) (F64.mul (F64.of_Z 11) Inch))).
Proof.
  apply (ParseDistance_plus_neutral "5ft11in"); [reflexivity | vm_compute; reflexivity].
Defined.

(** X5. After the optional sign the input must start with a digit or a
    period: any other first byte (a space, a second sign, a letter) is the
    invalid-distance error. *)
Theorem ParseDistance_first_byte (s : string) (c : ascii) (rest : string) :
  snd (consumeSign s) = String c rest -> isDot c || isDigit c = false ->
  ParseDistance s = Some (Err (errInvalid s)).
Proof.
  intros Hb Hc. unfold ParseDistance.
  destruct (consumeSign s) as [neg body]. cbn [snd] in Hb. subst body.
  assert (String.eqb (String c rest) "0" = false) as ->.
  { apply String.eqb_neq. intros [= -> _]. discriminate. }
  cbn [String.eqb String.length parseTerms parseTerm].
  rewrite Hc. reflexivity.
Qed.

Lemma ParseDistance_first_byte_examples :
  ParseDistance " 5m" = Some (Err (errInvalid " 5m")) /\
  ParseDistance "--5m" = Some (Err (errInvalid "--5m")) /\
  ParseDistance "+m" = Some (Err (errInvalid "+m")).
Proof.
  split; [|split].
  - apply (ParseDistance_first_byte " 5m" " " "5m"); reflexivity.
  - apply (ParseDistance_first_byte "--5m" "-" "5m"); reflexivity.
  - apply (ParseDistance_first_byte "+m" "m" ""); reflexivity.
Defined.

(** ** The display mode and the imperial rendering *)

Lemma runOps_app (ops1 ops2 : list modeOp) (m : bool) :
  runOps (ops1 ++ ops2) m = runOps ops2 (runOps ops1 m).
Proof. apply fold_left_app. Qed.

Lemma runOps_toggles (k : nat) (m : bool) :
  runOps (repeat OpToggle k) m = if Nat.even k then m else negb m.
Proof.
  revert m. induction k as [|k IH]; intros m; [reflexivity|].
  change (runOps (repeat OpToggle (S k)) m) with (runOps (repeat OpToggle k) (negb m)).
  rewrite IH, Nat.even_succ, <- Nat.negb_even.
  destruct (Nat.even k), m; reflexivity.
Qed.

(** X6. The display mode after any sequence of operations is decided by
    the last [UseMetric] or [UseImperial] and the number of [ToggleUnits]
    after it: what came before is forgotten, and toggling twice changes
    nothing. [String] then prints with that mode. *)
Theorem display_mode_after (before : list modeOp) (k : nat) (m : bool) (d : Distance) :
  runOps (before ++ OpUseMetric :: repeat OpToggle k) m = Nat.even k /\
  runOps (before ++ OpUseImperial :: repeat OpToggle k) m = Nat.odd k /\
  runOps (repeat OpToggle k) m = (if Nat.even k then m else negb m) /\
  ToggleUnits (ToggleUnits m) = m /\
  String_ (runOps (before ++ [OpUseMetric]) m) d = printMetric d /\
  String_ (runOps (before ++ [OpUseMetric; OpToggle]) m) d = printImperial d /\
  String_ (runOps (before ++ [OpUseImperial]) m) d = printImperial d.
Proof.
  repeat split.
  - rewrite runOps_app.
    change (runOps (OpUseMetric :: repeat OpToggle k) (runOps before m))
      with (runOps (repeat OpToggle k) true).
    rewrite runOps_toggles. destruct (Nat.even k); reflexivity.
  - rewrite runOps_app.
    change (runOps (OpUseImperial :: repeat OpToggle k) (runOps before m))
      with (runOps (repeat OpToggle k) false).
    rewrite runOps_toggles, <- Nat.negb_even. destruct (Nat.even k); reflexivity.
  - apply runOps_toggles.
  - apply negb_involutive.
  - rewrite runOps_app. reflexivity.
  - rewrite runOps_app. reflexivity.
  - rewrite runOps_app. reflexivity.
Qed.

(** X7. In imperial mode the unit is chosen by the descending thresholds
    yard, foot, and inch below a foot, the exact zero is "0yd", and no
    other unit is ever used (miles never are). *)
Theorem printImperial_thresholds :
  (forall d,
     printImperial d =
     match imperialUnit d with
     | Some (unit, suffix) => fmt_f (F64.div d unit) ++ suffix
     | None => "0yd"
     end) /\
  (forall d, printImperial d = "0yd" \/
     exists x suffix, In suffix ["yd"; "ft"; "in"] /\ printImperial d = fmt_f x ++ suffix) /\
  printImperial Mile = "1760.000000yd" /\
  printImperial (F64.mul (F64.of_Z 2) Feet) = "2.000000ft" /\
  printImperial Centimeter = "0.393701in" /\
  printImperial (F64.opp F64.zero) = "0yd".
Proof.
  assert (forall d,
     printImperial d =
     match imperialUnit d with
     | Some (unit, suffix) => fmt_f (F64.div d unit) ++ suffix
     | None => "0yd"
     end) as H.
  { intros d. unfold printImperial, imperialUnit.
    replace (F64.mul (F64.of_Z 1) Yard) with Yard by (vm_compute; reflexivity).
    replace (F64.mul (F64.of_Z 1) Feet) with Feet by (vm_compute; reflexivity).
    destruct (F64.leb Yard d); [reflexivity|].
    destruct (F64.leb Feet d); [reflexivity|].
    destruct (F64.eqb d F64.zero); reflexivity. }
  split; [exact H|]. split; [|vm_compute; repeat split].
  intros d. rewrite H. unfold imperialUnit.
  destruct (F64.leb Yard d); [right; eexists _, "yd"; split; [|reflexivity]; simpl; auto|].
  destruct (F64.leb Feet d); [right; eexists _, "ft"; split; [|reflexivity]; simpl; auto|].
  destruct (F64.eqb d F64.zero); [left; reflexivity|].
  right; eexists _, "in"; split; [|reflexivity]; simpl; auto.
Qed.

(** ** Terms in front of further input

    An iteration does not read past the unit of its term: the bytes that
    follow only have to start a number. *)

Lemma leadingInt_from_frame (s t : string) :
  forall x v s1, leadingInt_from x s = Some (v, s1) -> s1 <> "" ->
    leadingInt_from x (s ++ t) = Some (v, s1 ++ t).
Proof.
  induction s as [|c s IH]; cbn [leadingInt_from append]; intros x v s1 H Hne.
  - injection H as _ <-. congruence.
  - destruct (negb (isDigit c)); [injection H as <- <-; reflexivity|].
    destruct (F64.ltb (F64.of_Z (maxInt64 / 10)) x); [discriminate|].
    destruct (F64.ltb _ F64.zero); [discriminate|].
    apply IH; assumption.
Qed.

Lemma leadingFraction_from_frame (s t : string) :
  forall x sc o f sc' s2, leadingFraction_from x sc o s = (f, sc', s2) -> s2 <> "" ->
    leadingFraction_from x sc o (s ++ t) = (f, sc', s2 ++ t).
Proof.
  induction s as [|c s IH]; cbn [leadingFraction_from append]; intros x sc o f sc' s2 H Hne.
  - injection H as _ _ <-. congruence.
  - destruct (negb (isDigit c)); [injection H as <- <- <-; reflexivity|].
    destruct o; [apply IH; assumption|].
    destruct (maxInt64 / 10 <? x); [apply IH; assumption|].
    destruct (_ <? 0); apply IH; assumption.
Qed.

Lemma spanUnit_frame (s t : string) :
  numberAhead t = true ->
  forall u s3, spanUnit s = (u, s3) -> spanUnit (s ++ t) = (u, s3 ++ t).
Proof.
  intros Ht. induction s as [|c s IH]; cbn [spanUnit append]; intros u s3 H.
  - injection H as <- <-. destruct t as [|c t]; [reflexivity|].
    cbn [numberAhead] in Ht. cbn [spanUnit append]. rewrite Ht. reflexivity.
  - destruct (isDot c || isDigit c); [injection H as <- <-; reflexivity|].
    destruct (spanUnit s) as [u1 r1]. injection H as <- <-.
    rewrite (IH _ _ eq_refl). reflexivity.
Qed.

Lemma eqb_add_r (a b c : nat) : (a + c =? b + c)%nat = (a =? b)%nat.
Proof.
  destruct (Nat.eqb_spec (a + c) (b + c)), (Nat.eqb_spec a b); (reflexivity || lia).
Qed.

Lemma scanFraction_frame (s1 t : string) (f : Z) (sc : float64) (s2 : string) (post : bool) :
  scanFraction s1 = (f, sc, s2, post) -> s2 <> "" ->
  scanFraction (s1 ++ t) = (f, sc, s2 ++ t, post).
Proof.
  unfold scanFraction. destruct s1 as [|c s1]; [intros [= _ _ <- _]; congruence|].
  cbn [append]. destruct (isDot c).
  - unfold leadingFraction.
    destruct (leadingFraction_from 0 (F64.of_Z 1) false s1) as [[f1 sc1] r1] eqn:E.
    intros [= <- <- <- <-] Hne.
    rewrite (leadingFraction_from_frame _ t _ _ _ _ _ _ E Hne).
    rewrite !length_append, eqb_add_r. reflexivity.
  - intros [= <- <- <- <-] _. reflexivity.
Qed.

Lemma parseTerm_frame (orig s t : string) (v : float64) (r : string) :
  parseTerm orig s = Ok (v, r) -> numberAhead t = true ->
  parseTerm orig (s ++ t) = Ok (v, r ++ t).
Proof.
  intros H Ht. pose proof (parseTerm_inv _ _ _ _ H) as (p & u & Hs & Hune & _).
  revert H. unfold parseTerm. destruct s as [|c0 s0]; [discriminate|].
  cbn [append]. destruct (negb _); [discriminate|].
  change (String c0 (s0 ++ t)) with (String c0 s0 ++ t).
  unfold leadingInt.
  destruct (leadingInt_from F64.zero (String c0 s0)) as [[v0 s1]|] eqn:E1; [|discriminate].
  destruct (scanFraction s1) as [[[f sc] s2] post] eqn:E2.
  destruct (negb _ && negb _) eqn:Epp; [discriminate|].
  destruct (spanUnit s2) as [u' s3] eqn:E3.
  destruct (String.length u' =? 0)%nat eqn:E4; [discriminate|].
  assert (s2 <> "") as Hs2 by (intros ->; cbn in E3; injection E3 as <- _; discriminate).
  assert (s1 <> "") as Hs1
    by (intros ->; cbn in E2; injection E2 as _ _ <- _; congruence).
  rewrite (leadingInt_from_frame _ t _ _ _ E1 Hs1).
  rewrite (scanFraction_frame _ t _ _ _ _ E2 Hs2).
  rewrite !length_append, eqb_add_r, Epp.
  rewrite (spanUnit_frame _ t Ht _ _ E3), E4.
  destruct (unitMap u') as [unit|]; [|discriminate].
  destruct (termValue orig v0 f sc unit); [|discriminate].
  intros [= <- <-]. reflexivity.
Qed.

Lemma Terms_numberAhead (s : string) (vs : list float64) :
  Terms s vs -> numberAhead s = true.
Proof.
  destruct 1 as [|s v s' vs Hv _]; [reflexivity|].
  unfold parseTerm in Hv. destruct s as [|c s]; [discriminate|].
  cbn [numberAhead]. destruct (isDot c || isDigit c); [reflexivity | discriminate].
Qed.

Lemma Terms_app (a b : string) (vs ws : list float64) :
  Terms a vs -> Terms b ws -> Terms (a ++ b) (vs ++ ws).
Proof.
  intros Ha Hb. pose proof (Terms_numberAhead _ _ Hb) as Hn.
  induction Ha as [|s v s' vs Hv _ IH]; [exact Hb|].
  cbn [app]. econstructor; [|exact IH].
  apply parseTerm_frame; assumption.
Qed.


Lemma numeric_not_sign (c : ascii) :
  isDot c || isDigit c = true -> isMinus c || isPlus c = false.
Proof.
  unfold isDot, isDigit, isMinus, isPlus. intros H.
  apply orb_false_iff. apply orb_true_iff in H as [H|H].
  - apply Z.eqb_eq in H. split; apply Z.eqb_neq; lia.
  - apply andb_prop in H as [H _]. apply Z.leb_le in H. split; apply Z.eqb_neq; lia.
Qed.

(** The parser on an input that starts with a number: no sign is consumed
    and the loop runs on the whole input. *)
Lemma ParseDistance_number_first (s : string) :
  numberAhead s = true -> s <> "" -> s <> "0" ->
  ParseDistance s = parseTerms (String.length s) s F64.zero s.
Proof.
  intros Hn Hne H0. unfold ParseDistance.
  destruct s as [|c s]; [congruence|]. cbn [numberAhead] in Hn.
  cbn [consumeSign]. rewrite (numeric_not_sign c Hn).
  apply String.eqb_neq in H0. rewrite H0.
  change (String.eqb (String c s) "") with false. cbv iota.
  destruct (parseTerms _ _ _ _) as [[d|e]|]; reflexivity.
Qed.

Lemma append_not_zero (a b : string) : a <> "" -> a <> "0" -> a ++ b <> "0".
Proof.
  destruct a as [|c a]; [congruence|]. intros _ H0 E. cbn [append] in E.
  injection E as -> E. destruct a; [congruence | discriminate].
Qed.

(** X8. Parsing continues the running sum: when an unsigned input [a]
    parses to [x] and [b] is a sequence of terms with values [ws], the
    input [a ++ b] parses to [x] with the values [ws] added one after the
    other, from left to right. *)
Theorem ParseDistance_append (a b : string) (x : Distance) (ws : list float64) :
  unsigned a = true -> a <> "0" ->
  ParseDistance a = Some (Ok x) -> Terms b ws ->
  ParseDistance (a ++ b) = Some (Ok (fold_left F64.add ws x)).
Proof.
  intros Hu H0 Ha Hb. apply ParseDistance_Ok in Ha.
  rewrite (consumeSign_unsigned _ Hu) in Ha. cbn [fst snd] in Ha.
  destruct Ha as [[Ha _]|(_ & Hne & vs & Hvs & ->)]; [contradiction|].
  pose proof (Terms_app _ _ _ _ Hvs Hb) as Hab.
  apply ParseDistance_Ok.
  assert (unsigned (a ++ b) = true) as Hu'
    by (destruct a; [congruence | exact Hu]).
  rewrite (consumeSign_unsigned _ Hu'). cbn [fst snd]. right.
  split; [apply append_not_zero; assumption|].
  split; [destruct a; [congruence | discriminate]|].
  exists (vs ++ ws)%list. split; [exact Hab|]. symmetry. apply fold_left_app.
Qed.

(** The sum is taken in float64 from left to right, so it is not the sum
    of the two parses: after 2^53 nm each further nanometer is rounded
    away, while the two nanometers together are not. *)
Lemma ParseDistance_append_rounding :
  ParseDistance "9007199254740992nm1nm1nm" = Some (Ok (F64.of_Z (2 ^ 53))) /\
  ParseDistance "9007199254740992nm" = Some (Ok (F64.of_Z (2 ^ 53))) /\
  ParseDistance "1nm1nm" = Some (Ok (F64.of_Z 2)) /\
  F64.add (F64.of_Z (2 ^ 53)) (F64.of_Z 2) = F64.of_Z (2 ^ 53 + 2) /\
  F64.of_Z (2 ^ 53 + 2) <> F64.of_Z (2 ^ 53).
Proof.
  split; [|vm_compute; repeat split; discriminate].
  apply (ParseDistance_append "9007199254740992nm" "1nm1nm" (F64.of_Z (2 ^ 53))
           [F64.of_Z 1; F64.of_Z 1]);
    [reflexivity | discriminate | vm_compute; reflexivity |].
  apply Terms_cons with (s' := "1nm"); [vm_compute; reflexivity|].
  apply Terms_cons with (s' := ""); [vm_compute; reflexivity|].
  constructor.
Defined.




(** ** Exact float64 arithmetic on integers

    Below 2^53 every integer is a float64, and the float64 product, sum
    and exact quotient of two such integers is the float64 of the integer
    result: rounding to nearest does not change a value that fits. *)

Lemma iter_pos_eq {A : Type} (f : A -> A) (n : positive) :
  forall x, iter_pos f n x = Pos.iter f x n.
Proof.
  induction n as [n IH|n IH|]; intros x; cbn [iter_pos Pos.iter].
  - rewrite !IH, !Pos.iter_swap. reflexivity.
  - rewrite !IH. reflexivity.
  - reflexivity.
Qed.

Lemma Zpos_iter_xO (p n : positive) : Zpos (Pos.iter xO p n) = Zpos p * 2 ^ Zpos n.
Proof.
  induction n as [|n IH] using Pos.peano_ind.
  - cbn [Pos.iter]. lia.
  - rewrite Pos.iter_succ, Pos2Z.inj_succ, Z.pow_succ_r by lia.
    rewrite Pos2Z.inj_xO, IH. lia.
Qed.

Lemma Zpos_shl (p : positive) (j : Z) : 0 <= j -> Zpos (shl p j) = Zpos p * 2 ^ j.
Proof.
  intros Hj. destruct j as [|n|n]; cbn [shl]; [lia | apply Zpos_iter_xO | lia].
Qed.

Lemma digits2_size (p : positive) : digits2_pos p = Pos.size p.
Proof. induction p; cbn; congruence. Qed.

Lemma dg_log2 (p : positive) : dg p = Z.log2 (Zpos p) + 1.
Proof.
  unfold dg. rewrite digits2_size. destruct p; cbn; lia.
Qed.

Lemma dg_spec (p : positive) : 2 ^ (dg p - 1) <= Zpos p < 2 ^ dg p.
Proof.
  rewrite dg_log2. replace (Z.log2 (Zpos p) + 1 - 1) with (Z.log2 (Zpos p)) by lia.
  replace (Z.log2 (Zpos p) + 1) with (Z.succ (Z.log2 (Zpos p))) by lia.
  apply Z.log2_spec. lia.
Qed.

Lemma dg_unique (p : positive) (k : Z) : 2 ^ (k - 1) <= Zpos p < 2 ^ k -> dg p = k.
Proof.
  intros H. rewrite dg_log2.
  assert (0 < k).
  { destruct (Z.le_gt_cases k 0) as [Hk|Hk]; [|exact Hk].
    assert (2 ^ k <= 2 ^ 0) by (apply Z.pow_le_mono_r; lia). simpl in *. lia. }
  rewrite (Z.log2_unique (Zpos p) (k - 1)); [lia | lia |].
  replace (Z.succ (k - 1)) with k by lia. exact H.
Qed.

Lemma dg_pos (p : positive) : 1 <= dg p.
Proof. unfold dg. lia. Qed.

Lemma dg_shl (p : positive) (j : Z) : 0 <= j -> dg (shl p j) = dg p + j.
Proof.
  intros Hj. apply dg_unique. rewrite Zpos_shl by assumption.
  pose proof (dg_spec p) as [H1 H2]. pose proof (dg_pos p).
  replace (dg p + j - 1) with (dg p - 1 + j) by lia.
  rewrite !Z.pow_add_r by lia.
  assert (0 < 2 ^ j) by (apply Z.pow_pos_nonneg; lia). nia.
Qed.

Lemma dg_le (p : positive) (k : Z) : Zpos p < 2 ^ k -> dg p <= k.
Proof.
  intros H. pose proof (dg_spec p) as [H1 _].
  destruct (Z.le_gt_cases (dg p) k) as [Hk|Hk]; [exact Hk|].
  assert (2 ^ k <= 2 ^ (dg p - 1)) by (apply Z.pow_le_mono_r; lia). lia.
Qed.

Lemma dg_mono (p q : positive) : (p <= q)%positive -> dg p <= dg q.
Proof.
  intros H. apply dg_le. pose proof (dg_spec q) as [_ H2]. lia.
Qed.

Lemma shr_iter_exact (n c : positive) :
  Pos.iter shr_1 {| shr_m := Zpos (Pos.iter xO c n); shr_r := false; shr_s := false |} n
  = {| shr_m := Zpos c; shr_r := false; shr_s := false |}.
Proof.
  induction n as [|n IH] using Pos.peano_ind.
  - reflexivity.
  - rewrite !Pos.iter_succ, <- Pos.iter_swap.
    cbn [shr_1 orb]. exact IH.
Qed.

Lemma shl_0 (c : positive) : shl c 0 = c.
Proof. reflexivity. Qed.

Lemma shr_fexp_exact (c : positive) (s e : Z) :
  dg c = 53 -> 0 <= s -> -1074 <= e + s ->
  shr_fexp F64.prec F64.emax (Zpos (shl c s)) e loc_Exact
  = ({| shr_m := Zpos c; shr_r := false; shr_s := false |}, e + s).
Proof.
  intros Hc Hs He. unfold shr_fexp. cbn [Zdigits2 shr_record_of_loc].
  fold (dg (shl c s)). rewrite dg_shl, Hc by assumption.
  unfold fexp, emin, F64.prec, F64.emax.
  rewrite Z.max_l by lia.
  replace (53 + s + e - 53 - e) with s by lia.
  unfold shr. destruct s as [|n|n]; [rewrite Z.add_0_r; reflexivity | | lia].
  cbn [shl]. rewrite iter_pos_eq, shr_iter_exact. reflexivity.
Qed.

Lemma round_aux_exact (c : positive) (s e : Z) :
  dg c = 53 -> 0 <= s -> -1074 <= e + s -> e + s <= 971 ->
  binary_round_aux F64.prec F64.emax false (Zpos (shl c s)) e loc_Exact
  = S754_finite false c (e + s).
Proof.
  intros Hc Hs He1 He2. unfold binary_round_aux.
  rewrite shr_fexp_exact by assumption.
  cbn [shr_m loc_of_shr_record round_nearest_even].
  rewrite <- (shl_0 c) at 1. rewrite shr_fexp_exact by (try assumption; lia).
  cbn [shr_m]. rewrite Z.add_0_r.
  replace (e + s <=? F64.emax - F64.prec) with true; [reflexivity|].
  symmetry. apply Z.leb_le. unfold F64.emax, F64.prec. lia.
Qed.

Lemma shl_align_down (m : positive) (e e' : Z) :
  e' <= e -> shl_align m e e' = (shl m (e - e'), e').
Proof.
  intros H. unfold shl_align.
  destruct (e' - e) as [|d|d] eqn:E.
  - replace (e - e') with 0 by lia. replace e' with e by lia. reflexivity.
  - lia.
  - replace (e - e') with (Zpos d) by lia. reflexivity.
Qed.

Lemma shl_align_up (m : positive) (e e' : Z) :
  e <= e' -> shl_align m e e' = (m, e).
Proof.
  intros H. unfold shl_align. destruct (e' - e) as [|d|d] eqn:E; [reflexivity | reflexivity | lia].
Qed.

(** The float64 of a positive integer below 2^53. *)
Lemma of_Z_pos (p : positive) :
  dg p <= 53 ->
  F64.of_Z (Zpos p) = S754_finite false (shl p (53 - dg p)) (dg p - 53).
Proof.
  intros Hp. pose proof (dg_pos p).
  unfold F64.of_Z, binary_normalize, binary_round.
  fold (dg p). unfold fexp, emin, F64.prec, F64.emax.
  rewrite Z.max_l by lia.
  rewrite shl_align_down by lia.
  replace (0 - (dg p + 0 - 53)) with (53 - dg p) by lia.
  replace (dg p + 0 - 53) with (dg p - 53) by lia.
  rewrite <- (shl_0 (shl p (53 - dg p))).
  change 53 with F64.prec at 1. change 1024 with F64.emax.
  rewrite round_aux_exact; [f_equal; lia | rewrite dg_shl; lia | lia | lia | lia].
Qed.

Lemma shl_shl (p : positive) (i j : Z) : 0 <= i -> 0 <= j -> shl (shl p i) j = shl p (i + j).
Proof.
  intros Hi Hj. apply Pos2Z.inj. rewrite !Zpos_shl by lia.
  rewrite Z.pow_add_r by lia. lia.
Qed.

Lemma mul_exact (a b : positive) :
  Zpos a * Zpos b < 2 ^ 53 ->
  F64.mul (F64.of_Z (Zpos a)) (F64.of_Z (Zpos b)) = F64.of_Z (Zpos (a * b)).
Proof.
  intros H.
  assert (dg (a * b) <= 53) as Hc by (apply dg_le; rewrite Pos2Z.inj_mul; exact H).
  assert (dg a <= 53) as Ha by (apply dg_le; nia).
  assert (dg b <= 53) as Hb by (apply dg_le; nia).
  assert (dg a + dg b - 1 <= dg (a * b)) as Hlow.
  { rewrite !dg_log2, Pos2Z.inj_mul.
    pose proof (Z.log2_mul_below (Zpos a) (Zpos b)). lia. }
  pose proof (dg_pos a). pose proof (dg_pos b).
  rewrite !of_Z_pos by assumption.
  unfold F64.mul, SFmul. cbn [xorb].
  replace (shl a (53 - dg a) * shl b (53 - dg b))%positive
    with (shl (shl (a * b) (53 - dg (a * b))) (53 + dg (a * b) - dg a - dg b)).
  - rewrite round_aux_exact; [f_equal; lia | rewrite dg_shl; lia | lia | lia | lia].
  - apply Pos2Z.inj. rewrite Pos2Z.inj_mul, !Zpos_shl, Pos2Z.inj_mul by lia.
    replace (53 - dg a) with (53 - dg a + 0) by lia.
    transitivity (Zpos a * Zpos b * (2 ^ (53 - dg (a * b)) * 2 ^ (53 + dg (a * b) - dg a - dg b))); [lia|].
    transitivity (Zpos a * Zpos b * (2 ^ (53 - dg a + 0) * 2 ^ (53 - dg b))); [|lia].
    rewrite <- !Z.pow_add_r by lia. do 2 f_equal. lia.
Qed.

Lemma add_exact (a b : positive) :
  Zpos a + Zpos b < 2 ^ 53 ->
  F64.add (F64.of_Z (Zpos a)) (F64.of_Z (Zpos b)) = F64.of_Z (Zpos (a + b)).
Proof.
  intros H.
  assert (dg (a + b) <= 53) as Hc by (apply dg_le; rewrite Pos2Z.inj_add; exact H).
  assert (dg a <= dg (a + b)) as Hac by (apply dg_mono; lia).
  assert (dg b <= dg (a + b)) as Hbc by (apply dg_mono; lia).
  pose proof (dg_pos a). pose proof (dg_pos b).
  rewrite !of_Z_pos by lia.
  unfold F64.add, SFadd. cbn [cond_Zopp].
  set (ez := Z.min (dg a - 53) (dg b - 53)).
  assert (ez <= dg a - 53 /\ ez <= dg b - 53 /\ (ez = dg a - 53 \/ ez = dg b - 53)) as (E1 & E2 & E3)
    by (subst ez; lia).
  rewrite !shl_align_down by assumption. cbn [fst].
  rewrite !shl_shl by lia.
  replace (53 - dg a + (dg a - 53 - ez)) with (- ez) by lia.
  replace (53 - dg b + (dg b - 53 - ez)) with (- ez) by lia.
  rewrite <- Pos2Z.inj_add.
  replace (shl a (- ez) + shl b (- ez))%positive with (shl (a + b) (- ez))
    by (apply Pos2Z.inj; rewrite Pos2Z.inj_add, !Zpos_shl, Pos2Z.inj_add by lia; lia).
  unfold binary_normalize, binary_round. fold (dg (shl (a + b) (- ez))).
  rewrite dg_shl by lia. unfold fexp, emin, F64.prec, F64.emax.
  rewrite Z.max_l by lia.
  rewrite shl_align_up by lia.
  replace (shl (a + b) (- ez))
    with (shl (shl (a + b) (53 - dg (a + b))) (- ez - (53 - dg (a + b))))
    by (rewrite shl_shl by lia; f_equal; lia).
  change 53 with F64.prec at 1. change 1024 with F64.emax.
  rewrite round_aux_exact; [f_equal; lia | rewrite dg_shl; lia | lia | lia | lia].
Qed.

Lemma div_eucl_exact (a b q : Z) : 0 < b -> a = q * b -> Z.div_eucl a b = (q, 0).
Proof.
  intros Hb ->.
  assert (Z.div_eucl (q * b) b = (q * b / b, (q * b) mod b)) as ->
    by (unfold Z.div, Z.modulo; destruct (Z.div_eucl (q * b) b); reflexivity).
  rewrite Z.div_mul, Z.mod_mul by lia. reflexivity.
Qed.

Lemma new_location_0 (n : Z) : new_location n 0 = loc_Exact.
Proof. unfold new_location. destruct (Z.even n); reflexivity. Qed.

Lemma div_exact (a b w : positive) :
  Zpos a < 2 ^ 53 -> Zpos b < 2 ^ 53 -> (a = w * b)%positive ->
  F64.div (F64.of_Z (Zpos a)) (F64.of_Z (Zpos b)) = F64.of_Z (Zpos w).
Proof.
  intros Ha Hb E.
  assert (Zpos a = Zpos w * Zpos b) as EZ by (rewrite E; apply Pos2Z.inj_mul).
  assert (dg a <= 53) as Hda by (apply dg_le; exact Ha).
  assert (dg b <= 53) as Hdb by (apply dg_le; exact Hb).
  assert (dg w <= 53) as Hdw by (apply dg_le; nia).
  assert (dg a - dg b <= dg w) as Hlow.
  { pose proof (dg_spec a) as [A1 _]. pose proof (dg_spec b) as [_ B2].
    pose proof (dg_pos a). pose proof (dg_pos b).
    destruct (Z.le_gt_cases (dg a - dg b) (dg w)) as [|Hgt]; [assumption|].
    pose proof (dg_spec w) as [_ W2].
    assert (2 ^ dg w * 2 ^ dg b <= 2 ^ (dg a - 1)).
    { rewrite <- Z.pow_add_r by (pose proof (dg_pos w); lia).
      apply Z.pow_le_mono_r; lia. }
    pose proof (dg_pos w).
    assert (0 < 2 ^ dg b) by (apply Z.pow_pos_nonneg; lia).
    assert (0 < 2 ^ dg w) by (apply Z.pow_pos_nonneg; lia).
    nia. }
  assert (dg w <= dg a) as Hup by (apply dg_mono; nia).
  pose proof (dg_pos a). pose proof (dg_pos b). pose proof (dg_pos w).
  rewrite !of_Z_pos by assumption.
  unfold F64.div, SFdiv, SFdiv_core_binary. cbn [xorb Zdigits2].
  fold (dg (shl a (53 - dg a))). fold (dg (shl b (53 - dg b))).
  rewrite !dg_shl by lia. unfold fexp, emin, F64.prec, F64.emax.
  repeat match goal with
         | |- context [Z.min ?x ?y] => replace (Z.min x y) with (dg a - dg b - 53) by lia
         end.
  replace (dg a - 53 - (dg b - 53) - (dg a - dg b - 53)) with 53 by lia.
  cbv iota. rewrite Z.shiftl_mul_pow2 by lia.
  rewrite (div_eucl_exact _ _
             (Zpos (shl (shl w (53 - dg w)) (dg w + dg b - dg a)))).
  - rewrite new_location_0.
    change (binary_round_aux 53 1024) with (binary_round_aux F64.prec F64.emax).
    rewrite round_aux_exact; [f_equal; lia | rewrite dg_shl; lia | lia | lia | lia].
  - lia.
  - rewrite !Zpos_shl by lia. rewrite EZ.
    transitivity (Zpos w * Zpos b * (2 ^ (53 - dg a) * 2 ^ 53)); [lia|].
    transitivity (Zpos w * Zpos b * (2 ^ (53 - dg w) * 2 ^ (dg w + dg b - dg a) * 2 ^ (53 - dg b))); [|lia].
    rewrite <- !Z.pow_add_r by lia. do 2 f_equal. lia.
Qed.

Lemma of_Z_mul (a b : Z) :
  0 <= a < 2 ^ 53 -> 0 <= b < 2 ^ 53 -> a * b < 2 ^ 53 ->
  F64.mul (F64.of_Z a) (F64.of_Z b) = F64.of_Z (a * b).
Proof.
  intros Ha Hb Hab. destruct a as [|a|a], b as [|b|b]; try lia.
  - reflexivity.
  - rewrite (of_Z_pos b) by (apply dg_le; lia). reflexivity.
  - rewrite (of_Z_pos a) by (apply dg_le; lia). reflexivity.
  - apply mul_exact. exact Hab.
Qed.

Lemma of_Z_add (a b : Z) :
  0 <= a -> 0 <= b -> a + b < 2 ^ 53 ->
  F64.add (F64.of_Z a) (F64.of_Z b) = F64.of_Z (a + b).
Proof.
  intros Ha Hb Hab. destruct a as [|a|a], b as [|b|b]; try lia.
  - reflexivity.
  - rewrite Z.add_0_l, (of_Z_pos b) by (apply dg_le; lia). reflexivity.
  - rewrite Z.add_0_r, (of_Z_pos a) by (apply dg_le; lia). reflexivity.
  - apply add_exact. exact Hab.
Qed.

Lemma of_Z_div (a b : Z) :
  0 < a < 2 ^ 53 -> 0 < b -> (b | a) ->
  F64.div (F64.of_Z a) (F64.of_Z b) = F64.of_Z (a / b).
Proof.
  intros Ha Hb [w Hw]. subst a. rewrite Z.div_mul by lia.
  assert (0 < w) by nia.
  destruct w as [|w|w], b as [|b|b]; try lia.
  apply div_exact; [lia | nia | reflexivity].
Qed.

(** ** The numbers that the scanners read *)

Lemma wrap64_small (z : Z) : - 2 ^ 63 <= z < 2 ^ 63 -> wrap64 z = z.
Proof.
  intros H. unfold wrap64. rewrite Z.mod_small; lia.
Qed.

Lemma wrap64_range (z : Z) : - 2 ^ 63 <= wrap64 z < 2 ^ 63.
Proof.
  unfold wrap64. pose proof (Z.mod_pos_bound (z + 2 ^ 63) (2 ^ 64) ltac:(lia)). lia.
Qed.

Lemma digit_value (c : ascii) :
  isDigit c = true ->
  0 <= byte_val c - 48 <= 9 /\ sub64 (byte_val c) 48 = byte_val c - 48.
Proof.
  unfold isDigit. intros H. apply andb_prop in H as [H1 H2].
  apply Z.leb_le in H1, H2. split; [lia|].
  unfold sub64. apply wrap64_small. lia.
Qed.

Lemma decVal_from_mono (ds : string) :
  allDigits ds = true -> forall k, 0 <= k -> k <= decVal_from k ds.
Proof.
  induction ds as [|c ds IH]; cbn [allDigits decVal_from]; intros Hd k Hk; [lia|].
  apply andb_prop in Hd as [Hc Hd]. apply digit_value in Hc as [Hc _].
  specialize (IH Hd (10 * k + (byte_val c - 48)) ltac:(lia)). lia.
Qed.

Lemma ltb_limit_of_Z (k : Z) :
  0 <= k < 2 ^ 53 -> F64.ltb (F64.of_Z (maxInt64 / 10)) (F64.of_Z k) = false.
Proof.
  intros Hk.
  replace (F64.of_Z (maxInt64 / 10)) with (S754_finite false 7205759403792794 7)
    by (vm_compute; reflexivity).
  destruct k as [|p|p]; [reflexivity | | lia].
  assert (dg p <= 53) as Hp by (apply dg_le; lia).
  rewrite of_Z_pos by exact Hp.
  unfold F64.ltb, SFltb, SFcompare.
  destruct (Z.compare_spec 7 (dg p - 53)); [lia | lia | reflexivity].
Qed.

Lemma leadingInt_from_exact (ds : string) :
  allDigits ds = true ->
  forall k, 0 <= k -> decVal_from k ds < 2 ^ 53 ->
    leadingInt_from (F64.of_Z k) ds = Some (F64.of_Z (decVal_from k ds), "").
Proof.
  induction ds as [|c ds IH]; cbn [allDigits decVal_from leadingInt_from];
    intros Hd k Hk Hv; [reflexivity|].
  apply andb_prop in Hd as [Hc Hd]. rewrite Hc. cbn [negb].
  destruct (digit_value c Hc) as [Hdig ->].
  pose proof (decVal_from_mono ds Hd (10 * k + (byte_val c - 48)) ltac:(lia)) as Hm.
  rewrite ltb_limit_of_Z by lia.
  rewrite of_Z_mul by lia.
  rewrite of_Z_add by lia.
  replace (k * 10 + (byte_val c - 48)) with (10 * k + (byte_val c - 48)) by lia.
  rewrite nsign_not_lt_zero by (apply of_Z_nsign; lia).
  apply IH; [exact Hd | lia | exact Hv].
Qed.

(** X10. [leadingInt] reads a run of digits that denotes a number below 2^53
    exactly: it returns the float64 of that number and consumes the run.
    Leading zeros do not matter. *)
Theorem leadingInt_exact (ds : string) :
  allDigits ds = true -> decVal ds < 2 ^ 53 ->
  leadingInt ds = Some (F64.of_Z (decVal ds), "").
Proof.
  intros Hd Hv. apply (leadingInt_from_exact ds Hd 0); [lia | exact Hv].
Qed.

Lemma leadingInt_exact_2_53 :
  leadingInt "0009007199254740991" = Some (F64.of_Z (2 ^ 53 - 1), "").
Proof.
  apply (leadingInt_exact "0009007199254740991"); [reflexivity | vm_compute; reflexivity].
Defined.

Lemma pow10_step (j : nat) :
  (j < 18)%nat ->
  F64.mul (F64.of_Z (10 ^ Z.of_nat j)) (F64.of_Z 10) = F64.of_Z (10 ^ Z.of_nat (S j)).
Proof.
  intros H.
  do 18 (destruct j as [|j]; [vm_compute; reflexivity|]). lia.
Qed.

Lemma leadingFraction_from_exact (ds : string) :
  allDigits ds = true ->
  forall (j : nat) (x : Z),
    (j + String.length ds <= 18)%nat -> 0 <= x < 10 ^ Z.of_nat j ->
    leadingFraction_from x (F64.of_Z (10 ^ Z.of_nat j)) false ds
    = (decVal_from x ds, F64.of_Z (10 ^ Z.of_nat (j + String.length ds)), "").
Proof.
  induction ds as [|c ds IH];
    cbn [allDigits decVal_from leadingFraction_from String.length]; intros Hd j x Hj Hx.
  - rewrite Nat.add_0_r. reflexivity.
  - apply andb_prop in Hd as [Hc Hd]. rewrite Hc. cbn [negb].
    destruct (digit_value c Hc) as [Hdig _].
    assert (10 ^ Z.of_nat j <= 10 ^ 17) as Hp by (apply Z.pow_le_mono_r; lia).
    assert (10 ^ Z.of_nat (S j) = 10 * 10 ^ Z.of_nat j) as Hs
      by (rewrite Nat2Z.inj_succ, Z.pow_succ_r by lia; reflexivity).
    replace (maxInt64 / 10 <? x) with false
      by (symmetry; apply Z.ltb_ge; change (maxInt64 / 10) with 922337203685477580; lia).
    unfold sub64, add64, mul64.
    rewrite (wrap64_small (x * 10)) by lia.
    rewrite (wrap64_small (x * 10 + byte_val c)) by lia.
    rewrite wrap64_small by lia.
    replace (x * 10 + byte_val c - 48 <? 0) with false by (symmetry; apply Z.ltb_ge; lia).
    rewrite pow10_step by lia.
    replace (x * 10 + byte_val c - 48) with (10 * x + (byte_val c - 48)) by lia.
    rewrite (IH Hd (S j)); [|lia|lia].
    replace (S j + String.length ds)%nat with (j + S (String.length ds))%nat by lia.
    reflexivity.
Qed.

Lemma leadingFraction_from_range (s : string) :
  forall x sc o f sc' r,
    0 <= x <= maxInt64 ->
    leadingFraction_from x sc o s = (f, sc', r) -> 0 <= f <= maxInt64.
Proof.
  induction s as [|c s IH]; cbn [leadingFraction_from]; intros x sc o f sc' r Hx H.
  - injection H as <- _ _. exact Hx.
  - destruct (negb (isDigit c)); [injection H as <- _ _; exact Hx|].
    destruct o; [eapply IH; eassumption|].
    destruct (maxInt64 / 10 <? x); [eapply IH; eassumption|].
    destruct (_ <? 0) eqn:E; [eapply IH; eassumption|].
    eapply IH; [|exact H]. apply Z.ltb_ge in E.
    pose proof (wrap64_range (add64 (mul64 x 10) (byte_val c) - 48)) as Hw.
    unfold sub64 in *. unfold maxInt64. lia.
Qed.

(** X11. [leadingFraction] reads up to 18 fractional digits exactly: the
    numerator is the number the digits denote, leading zeros included in
    the scale 10^n. On any run of digits it consumes the whole run and
    its numerator stays between 0 and 2^63-1: the int64 never wraps. *)
Theorem leadingFraction_exact (ds : string) :
  allDigits ds = true ->
  ((String.length ds <= 18)%nat ->
   leadingFraction ds = (decVal ds, F64.of_Z (10 ^ Z.of_nat (String.length ds)), "")) /\
  (forall f sc r, leadingFraction ds = (f, sc, r) -> r = "" /\ 0 <= f <= maxInt64).
Proof.
  intros Hd. split.
  - intros Hlen. apply (leadingFraction_from_exact ds Hd 0 0); [lia | simpl; lia].
  - intros f sc r H. split.
    + unfold leadingFraction in H.
      rewrite <- (append_nil_r ds) in H.
      rewrite leadingFraction_from_app in H by auto.
      destruct (leadingFraction_from 0 (F64.of_Z 1) false ds) as [[f1 sc1] r1].
      injection H as _ _ <-. reflexivity.
    + eapply leadingFraction_from_range; [|exact H]. unfold maxInt64. lia.
Qed.

Lemma leadingFraction_exact_007 :
  leadingFraction "007" = (7, F64.of_Z 1000, "") /\
  (forall f sc r, leadingFraction "99999999999999999999999" = (f, sc, r) ->
     r = "" /\ 0 <= f <= maxInt64).
Proof.
  destruct (leadingFraction_exact "007" eq_refl) as [H _].
  destruct (leadingFraction_exact "99999999999999999999999" eq_refl) as [_ H'].
  split; [apply H; simpl; lia | exact H'].
Defined.

(** ** Decimal inputs that denote whole nanometers *)

Lemma float_eqb_eq (x y : float64) : float_eqb x y = true -> x = y.
Proof.
  destruct x as [a|a| |a m e], y as [b|b| |b m' e']; cbn; try discriminate;
    try (intros H; apply Bool.eqb_prop in H; congruence); [reflexivity|].
  intros H. apply andb_prop in H as [H He]. apply andb_prop in H as [Ha Hm].
  apply Bool.eqb_prop in Ha. apply Pos.eqb_eq in Hm. apply Z.eqb_eq in He. congruence.
Qed.

Lemma unitScales_ok : forallb scale_ok unitScales = true.
Proof. vm_compute. reflexivity. Qed.

Lemma scaleOf_in_In (tbl : list (string * Z)) (u : string) (U : Z) :
  scaleOf_in tbl u = Some U -> In (u, U) tbl.
Proof.
  induction tbl as [|[k y] tbl IH]; cbn; [discriminate|].
  destruct (String.eqb k u) eqn:E.
  - apply String.eqb_eq in E. intros [= ->]. subst. auto.
  - auto.
Qed.

Lemma scaleOf_facts (u : string) (U : Z) :
  scaleOf u = Some U ->
  unitMap u = Some (F64.of_Z U) /\ unitBytes u = true /\ u <> "" /\
  0 < U < 2 ^ 53 /\
  exists mq eq, F64.div (F64.of_Z maxInt64) (F64.of_Z U) = S754_finite false mq eq /\
                - Z.log2 U < eq.
Proof.
  intros H. apply scaleOf_in_In in H.
  pose proof unitScales_ok as Hall. rewrite forallb_forall in Hall.
  apply Hall in H. unfold scale_ok in H.
  destruct (unitMap u) as [x|]; [|discriminate].
  destruct (F64.div (F64.of_Z maxInt64) (F64.of_Z U)) as [| | |[|] mq eq]; try discriminate.
  repeat (apply andb_prop in H as [H ?]).
  apply float_eqb_eq in H. subst x.
  repeat split; try assumption.
  - intros ->. discriminate.
  - apply Z.ltb_lt. assumption.
  - apply Z.ltb_lt. assumption.
  - exists mq, eq. split; [reflexivity | apply Z.ltb_lt; assumption].
Qed.

(** The overflow test [v > (1<<63-1)/unit] passes on an integer part [n]
    with [n * U] below 2^53. *)
Lemma overflow_test_passes (u : string) (U n : Z) :
  scaleOf u = Some U -> 0 <= n -> n * U < 2 ^ 53 ->
  F64.ltb (F64.div (F64.of_Z maxInt64) (F64.of_Z U)) (F64.of_Z n) = false.
Proof.
  intros Hu Hn Hv.
  destruct (scaleOf_facts u U Hu) as (_ & _ & _ & HU & mq & eq & -> & Hq).
  destruct n as [|p|p]; [reflexivity | | lia].
  pose proof (Z.log2_spec U ltac:(lia)) as [Hl _].
  pose proof (Z.log2_nonneg U) as Hl0.
  assert (Z.log2 U <= 53) as Hl53.
  { destruct (Z.le_gt_cases (Z.log2 U) 53) as [|Hgt]; [assumption|].
    assert (2 ^ 53 <= 2 ^ Z.log2 U) by (apply Z.pow_le_mono_r; lia). lia. }
  assert (dg p <= 53 - Z.log2 U) as Hp.
  { apply dg_le.
    assert (2 ^ (53 - Z.log2 U) * 2 ^ Z.log2 U = 2 ^ 53) as E
      by (rewrite <- Z.pow_add_r by lia; f_equal; lia).
    assert (0 < 2 ^ Z.log2 U) by (apply Z.pow_pos_nonneg; lia). nia. }
  rewrite of_Z_pos by lia.
  unfold F64.ltb, SFltb, SFcompare.
  destruct (Z.compare_spec eq (dg p - 53)); [lia | lia | reflexivity].
Qed.

(** The value of a decimal term, as the parser computes it. *)
Lemma termValue_decimal (orig ip : string) (frac : option string) (u : string) (U fn : Z) :
  allDigits ip = true ->
  match frac with Some fs => allDigits fs = true | None => True end ->
  scaleOf u = Some U -> fracNanos frac U = Some fn ->
  decVal ip * U + fn < 2 ^ 53 ->
  (let '(f, sc) := fractionOf (fracText frac) in
   termValue orig (F64.of_Z (decVal ip)) f sc (F64.of_Z U))
  = Ok (F64.of_Z (decVal ip * U + fn)).
Proof.
  intros Hip Hfs Hu Hfn Hv.
  destruct (scaleOf_facts u U Hu) as (_ & _ & _ & HU & _).
  pose proof (decVal_from_mono ip Hip 0 ltac:(lia)) as Hn. fold (decVal ip) in Hn.
  assert (0 <= fn) as Hfn0.
  { destruct frac as [fs|]; cbn in Hfn; [|injection Hfn as <-; lia].
    destruct (_ =? 0); [|discriminate]. injection Hfn as <-.
    pose proof (decVal_from_mono fs Hfs 0 ltac:(lia)). fold (decVal fs) in *.
    apply Z.mul_nonneg_nonneg; [lia|]. apply Z.div_pos; [lia|].
    apply Z.pow_pos_nonneg; lia. }
  assert (decVal ip * U < 2 ^ 53) as HnU by lia.
  assert (decVal ip < 2 ^ 53) as Hn53 by nia.
  destruct frac as [fs|]; cbn [fracText fractionOf fracNanos] in *.
  - set (k := String.length fs) in *.
    destruct (U mod 10 ^ Z.of_nat k =? 0) eqn:Ediv; [|discriminate].
    injection Hfn as <-. apply Z.eqb_eq in Ediv.
    assert (0 < 10 ^ Z.of_nat k) as Hp by (apply Z.pow_pos_nonneg; lia).
    assert ((10 ^ Z.of_nat k | U)) as Hdvd by (apply Z.mod_divide; lia).
    assert (10 ^ Z.of_nat k <= U) as Hle by (apply Z.divide_pos_le; [lia | exact Hdvd]).
    assert (k <= 18)%nat as Hk.
    { destruct (Nat.le_gt_cases k 18) as [|Hgt]; [assumption|].
      assert (10 ^ 19 <= 10 ^ Z.of_nat k) by (apply Z.pow_le_mono_r; lia). lia. }
    assert (leadingFraction fs = (decVal fs, F64.of_Z (10 ^ Z.of_nat k), "")) as Hexact
      by (apply (leadingFraction_from_exact fs Hfs 0 0); [exact Hk | simpl; lia]).
    change ("." ++ fs) with (String "." fs). cbn [fractionOf].
    rewrite Hexact.
    pose proof (decVal_from_mono fs Hfs 0 ltac:(lia)) as Hf0. fold (decVal fs) in Hf0.
    unfold termValue.
    rewrite (overflow_test_passes u U _ Hu Hn HnU).
    rewrite of_Z_mul by lia.
    destruct (0 <? decVal fs) eqn:Ef.
    + apply Z.ltb_lt in Ef.
      rewrite of_Z_div by (try assumption; lia).
      assert (0 < U / 10 ^ Z.of_nat k) as Hq
        by (apply Z.div_str_pos; lia).
      assert (U / 10 ^ Z.of_nat k <= U) as HqU
        by (apply Z.div_le_upper_bound; nia).
      assert (decVal fs * (U / 10 ^ Z.of_nat k) < 2 ^ 53) by lia.
      assert (decVal fs < 2 ^ 53) by nia.
      rewrite of_Z_mul by lia.
      rewrite of_Z_add by (try apply Z.mul_nonneg_nonneg; lia).
      rewrite nsign_not_lt_zero; [reflexivity|].
      apply of_Z_nsign. apply Z.add_nonneg_nonneg; apply Z.mul_nonneg_nonneg; lia.
    + apply Z.ltb_ge in Ef. replace (decVal fs) with 0 by lia.
      rewrite Z.mul_0_l, Z.add_0_r. reflexivity.
  - injection Hfn as <-. unfold termValue.
    rewrite (overflow_test_passes u U _ Hu Hn HnU).
    rewrite of_Z_mul by lia. change (0 <? 0) with false. cbv iota.
    rewrite Z.add_0_r. reflexivity.
Qed.

Lemma wellFormed_inv (ip : string) (frac : option string) (u : string) :
  wellFormed (ip, frac, u) = true ->
  allDigits ip = true /\ ip <> "" /\
  match frac with Some fs => allDigits fs = true | None => True end.
Proof.
  unfold wellFormed. intros H. apply andb_prop in H as [H Hf].
  apply andb_prop in H as [Hip Hne]. apply negb_true_iff, String.eqb_neq in Hne.
  repeat split; try assumption. destruct frac; [assumption | exact I].
Qed.

Lemma termNanos_inv (ip : string) (frac : option string) (u : string) (n : Z) :
  wellFormed (ip, frac, u) = true -> termNanos (ip, frac, u) = Some n ->
  exists U fn, scaleOf u = Some U /\ fracNanos frac U = Some fn /\
               n = decVal ip * U + fn /\ 0 <= n.
Proof.
  intros Hw H. apply wellFormed_inv in Hw as (Hip & _ & Hfs).
  unfold termNanos in H.
  destruct (scaleOf u) as [U|] eqn:Eu; [|discriminate].
  destruct (fracNanos frac U) as [fn|] eqn:Ef; [|discriminate].
  injection H as <-. exists U, fn.
  split; [reflexivity|]. split; [exact Ef|]. split; [reflexivity|].
  destruct (scaleOf_facts u U Eu) as (_ & _ & _ & HU & _).
  pose proof (decVal_from_mono ip Hip 0 ltac:(lia)) as Hn. fold (decVal ip) in Hn.
  assert (0 <= fn); [|apply Z.add_nonneg_nonneg; [apply Z.mul_nonneg_nonneg|]; lia].
  destruct frac as [fs|]; cbn in Ef; [|injection Ef as <-; lia].
  destruct (_ =? 0); [|discriminate]. injection Ef as <-.
  pose proof (decVal_from_mono fs Hfs 0 ltac:(lia)). fold (decVal fs) in *.
  apply Z.mul_nonneg_nonneg; [lia|]. apply Z.div_pos; [lia|].
  apply Z.pow_pos_nonneg; lia.
Qed.

(** The iteration on a decimal term, in front of what follows. *)
Lemma parseTerm_decimal (orig : string) (t : decTerm) (r : string) (n : Z) :
  wellFormed t = true -> termNanos t = Some n -> n < 2 ^ 53 ->
  numberAhead r = true ->
  parseTerm orig (termText t ++ r) = Ok (F64.of_Z n, r).
Proof.
  destruct t as [[ip frac] u]. intros Hw Hn Hv Hr.
  destruct (termNanos_inv _ _ _ _ Hw Hn) as (U & fn & Eu & Ef & -> & Hn0).
  destruct (wellFormed_inv _ _ _ Hw) as (Hip & Hne & Hfs).
  destruct (scaleOf_facts u U Eu) as (Hmap & Hub & Hune & HU & _).
  pose proof (termValue_decimal orig ip frac u U fn Hip Hfs Eu Ef Hv) as Hval.
  assert (decVal ip < 2 ^ 53) as Hip53.
  { pose proof (decVal_from_mono ip Hip 0 ltac:(lia)) as H0. fold (decVal ip) in H0.
    assert (0 <= fn).
    { destruct frac as [fs|]; cbn in Ef; [|injection Ef as <-; lia].
      destruct (_ =? 0); [|discriminate]. injection Ef as <-.
      pose proof (decVal_from_mono fs Hfs 0 ltac:(lia)). fold (decVal fs) in *.
      apply Z.mul_nonneg_nonneg; [lia|]. apply Z.div_pos; [lia|].
      apply Z.pow_pos_nonneg; lia. }
    nia. }
  cbn [termText]. rewrite !append_assoc.
  assert (parseTerm orig (ip ++ fracText frac ++ u ++ r) =
          match leadingInt ip with
          | None => Err (errInvalid orig)
          | Some (v, _) =>
              match unitMap u with
              | None => Err (errUnknownUnit u orig)
              | Some unit =>
                  let '(f, sc) := fractionOf (fracText frac) in
                  match termValue orig v f sc unit with
                  | Err e => Err e
                  | Ok v' => Ok (v', r)
                  end
              end
          end) as ->.
  { destruct frac as [fs|].
    - exact (parseTerm_single orig ip fs u r true Hip Hne Hfs Hub Hune Hr).
    - exact (parseTerm_single orig ip "" u r false Hip Hne eq_refl Hub Hune Hr). }
  assert (leadingInt ip = Some (F64.of_Z (decVal ip), "")) as ->
    by (apply (leadingInt_from_exact ip Hip 0); [lia | exact Hip53]).
  rewrite Hmap.
  destruct (fractionOf (fracText frac)) as [f sc]. rewrite Hval. reflexivity.
Qed.

Lemma termText_long (t : decTerm) (n : Z) :
  wellFormed t = true -> termNanos t = Some n ->
  numberAhead (termText t) = true /\ (2 <= String.length (termText t))%nat.
Proof.
  destruct t as [[ip frac] u]. intros Hw Hn.
  destruct (termNanos_inv _ _ _ _ Hw Hn) as (U & fn & Eu & _).
  destruct (wellFormed_inv _ _ _ Hw) as (Hip & Hne & _).
  destruct (scaleOf_facts u U Eu) as (_ & _ & Hune & _).
  destruct (allDigits_head _ Hip Hne) as (c & ip' & -> & Hc).
  cbn [termText append numberAhead String.length]. split; [rewrite Hc; apply orb_true_r|].
  rewrite !length_append. destruct u; [congruence | simpl; lia].
Qed.

Lemma termsText_numberAhead (ts : list decTerm) (total : Z) :
  forallb wellFormed ts = true -> termsNanos ts = Some total ->
  numberAhead (termsText ts) = true.
Proof.
  destruct ts as [|t ts]; [reflexivity|]. cbn [forallb termsNanos termsText fold_right].
  intros Hw Hn. apply andb_prop in Hw as [Hw _].
  destruct (termNanos t) as [n|] eqn:E; [|discriminate].
  destruct (termText_long t n Hw E) as [H Hl].
  destruct (termText t); [simpl in Hl; lia | exact H].
Qed.

(** The loop on a sequence of decimal terms. *)
Lemma parseTerms_decimal (orig : string) (ts : list decTerm) :
  forall fuel acc total,
    forallb wellFormed ts = true -> termsNanos ts = Some total ->
    0 <= acc -> acc + total < 2 ^ 53 ->
    (String.length (termsText ts) <= fuel)%nat ->
    parseTerms fuel orig (F64.of_Z acc) (termsText ts)
    = Some (Ok (F64.of_Z (acc + total))).
Proof.
  induction ts as [|t ts IH]; intros fuel acc total Hw Hn Hacc Hv Hfuel.
  - injection Hn as <-. rewrite Z.add_0_r. destruct fuel; reflexivity.
  - cbn [forallb termsNanos] in Hw, Hn. apply andb_prop in Hw as [Hwt Hws].
    destruct (termNanos t) as [n|] eqn:En; [|discriminate].
    destruct (termsNanos ts) as [m|] eqn:Em; [|discriminate].
    injection Hn as <-.
    assert (0 <= n) as Hn0.
    { destruct t as [[ip frac] u].
      destruct (termNanos_inv _ _ _ _ Hwt En) as (_ & _ & _ & _ & _ & H). exact H. }
    assert (0 <= m) as Hm0.
    { clear - Hws Em. revert m Em. induction ts as [|t' ts' IH']; intros m Em.
      - injection Em as <-. lia.
      - cbn [forallb termsNanos] in Hws, Em. apply andb_prop in Hws as [Hw' Hws'].
        destruct (termNanos t') as [n'|] eqn:En'; [|discriminate].
        destruct (termsNanos ts') as [m'|]; [|discriminate].
        injection Em as <-. specialize (IH' Hws' m' eq_refl).
        destruct t' as [[ip frac] u].
        destruct (termNanos_inv _ _ _ _ Hw' En') as (_ & _ & _ & _ & _ & H). lia. }
    pose proof (termsText_numberAhead ts m Hws Em) as Hr.
    pose proof (parseTerm_decimal orig t (termsText ts) n Hwt En ltac:(lia) Hr) as Hp.
    pose proof (parseTerm_shorter _ _ _ _ Hp) as Hsh.
    change (termsText (t :: ts)) with (termText t ++ termsText ts) in *.
    destruct fuel as [|fuel]; [lia|].
    destruct (termText t ++ termsText ts) as [|c s] eqn:E; [simpl in Hsh; lia|].
    cbn [parseTerms]. rewrite Hp.
    rewrite of_Z_add by lia.
    rewrite nsign_not_lt_zero by (apply of_Z_nsign; lia).
    rewrite (IH fuel (acc + n) m Hws eq_refl); [f_equal; f_equal; f_equal; lia | lia | lia |].
    cbn [String.length] in Hfuel, Hsh. lia.
Qed.

(** X12. Decimal inputs that denote whole nanometers parse exactly. For a
    sequence of terms, each with integer digits, an optional fraction and
    one of the twelve units with a whole scale, such that the fraction has
    no digit below the nanometer and the total is below 2^53 nm (about
    9007 km), the parser returns the float64 of the exact total, and its
    negation under a minus sign. *)
Theorem ParseDistance_decimal_exact (ts : list decTerm) (total : Z) :
  forallb wellFormed ts = true -> ts <> [] ->
  termsNanos ts = Some total -> total < 2 ^ 53 ->
  ParseDistance (termsText ts) = Some (Ok (F64.of_Z total)) /\
  ParseDistance ("-" ++ termsText ts) = Some (Ok (F64.opp (F64.of_Z total))).
Proof.
  intros Hw Hne Hn Hv.
  pose proof (termsText_numberAhead ts total Hw Hn) as Hnum.
  assert (2 <= String.length (termsText ts))%nat as Hlen.
  { destruct ts as [|t ts]; [congruence|].
    cbn [forallb termsNanos] in Hw, Hn. apply andb_prop in Hw as [Hwt _].
    destruct (termNanos t) as [n|] eqn:En; [|discriminate].
    destruct (termText_long t n Hwt En) as [_ H].
    change (termsText (t :: ts)) with (termText t ++ termsText ts).
    rewrite length_append. lia. }
  assert (termsText ts <> "") as H1 by (intros E; rewrite E in Hlen; simpl in Hlen; lia).
  assert (termsText ts <> "0") as H2 by (intros E; rewrite E in Hlen; simpl in Hlen; lia).
  split.
  - rewrite ParseDistance_number_first by assumption.
    change F64.zero with (F64.of_Z 0).
    apply (parseTerms_decimal _ ts _ 0 total); try assumption; lia.
  - unfold ParseDistance. rewrite consumeSign_minus.
    apply String.eqb_neq in H1, H2. rewrite H1, H2.
    change F64.zero with (F64.of_Z 0).
    rewrite (parseTerms_decimal _ ts _ 0 total); try assumption; try lia.
    reflexivity.
Qed.

Lemma ParseDistance_decimal_examples :
  ParseDistance "5ft11in" = Some (Ok (F64.of_Z 1803400000)) /\
  ParseDistance "-1.5km0.25m" = Some (Ok (F64.opp (F64.of_Z 1500250000000))).
Proof.
  split.
  - apply (ParseDistance_decimal_exact [("5", None, "ft"); ("11", None, "in")]);
      [reflexivity | discriminate | reflexivity | vm_compute; reflexivity].
  - apply (ParseDistance_decimal_exact
             [("1", Some "5", "km"); ("0", Some "25", "m")] 1500250000000);
      [reflexivity | discriminate | reflexivity | vm_compute; reflexivity].
Defined.

(** ** Formatting and parsing again *)

Lemma allBelow_spec (k : nat) (f : Z -> bool) :
  allBelow k f = true -> forall n, 0 <= n < Z.of_nat k -> f n = true.
Proof.
  induction k as [|k IH]; cbn [allBelow]; intros H n Hn; [lia|].
  apply andb_prop in H as [H1 H2].
  destruct (Z.eq_dec n (Z.of_nat k)) as [->|Hne]; [exact H1|].
  apply IH; [exact H2 | lia].
Qed.

Lemma roundTrips_true (d : Distance) :
  roundTrips d = true -> ParseDistance (printMetric d) = Some (Ok d).
Proof.
  unfold roundTrips. generalize (ParseDistance (printMetric d)).
  intros [[d'|e]|] H; [|discriminate H|discriminate H].
  apply float_eqb_eq in H. subst d'. reflexivity.
Qed.

Lemma roundTrips_below_2000 :
  allBelow 2000 (fun n => roundTrips (F64.of_Z n)) = true /\
  allBelow 2000 (fun n => roundTrips (F64.of_Z (n * 1000))) = true /\
  allBelow 2000 (fun n => roundTrips (F64.of_Z (n * 1000000))) = true.
Proof. split; [|split]; vm_cast_no_check (eq_refl true). Qed.

(** X13. In metric mode, formatting a whole number below 2000 of
    nanometers, micrometers or millimeters and parsing the text gives the
    same distance back: the six fractional digits hold the value, and the
    parser reads the micro sign that the formatter writes. The range
    passes through every rendering: nm, micro-m, mm, cm, m and the bare 0m. *)
Theorem metric_round_trip (n U : Z) :
  0 <= n < 2000 -> In U [1; 1000; 1000000] ->
  ParseDistance (printMetric (F64.of_Z (n * U))) = Some (Ok (F64.of_Z (n * U))).
Proof.
  intros Hn HU. apply roundTrips_true.
  destruct roundTrips_below_2000 as (H1 & H2 & H3).
  cbn [In] in HU. destruct HU as [<-|[<-|[<-|[]]]].
  - rewrite Z.mul_1_r. exact (allBelow_spec _ _ H1 n Hn).
  - exact (allBelow_spec _ _ H2 n Hn).
  - exact (allBelow_spec _ _ H3 n Hn).
Qed.

Lemma metric_round_trip_1500um :
  printMetric (F64.of_Z (1500 * 1000)) = "1.500000mm" /\
  ParseDistance (printMetric (F64.of_Z (1500 * 1000))) = Some (Ok (F64.of_Z (1500 * 1000))).
Proof.
  split; [vm_compute; reflexivity|].
  apply (metric_round_trip 1500 1000); [lia | simpl; auto].
Defined.
